(** * The supervisor's notification broker

    A shallow embedding of
    [components/supervisor/pkg/supervisor/notification.go]: the
    [NotificationService] with its subscription registry and its table of
    pending notifications, the producer path [Notify], the dispatcher
    [notifySubscribers], the subscriber path [Subscribe] with
    [subscribeLocked] and [unsubscribeLocked], and the responder path
    [Respond] with [validateResponse].

    Every function body that runs under [srv.mutex] is one atomic state
    transformer here.  Go's buffered channels are modelled by their buffer,
    capacity and closed flag; the two Go objects that are shared by pointer
    (a [pendingNotification] between the table and the producer, a
    [subscription] between the registry and the subscriber) live in two
    stores addressed by index, and the tables hold addresses. *)

From stdpp Require Import gmap strings list fin_maps.

Local Open Scope string_scope.
Local Open Scope list_scope.
Local Open Scope N_scope.

(** ** Go runtime: outcomes, uint64, channels *)

(** A Go statement sequence either completes, parks its goroutine for good
    on a channel operation that cannot proceed, or panics. *)
Inductive outcome (A : Type) : Type :=
  | Ok (a : A)
  | Blocked
  | Panic.
Arguments Ok {A} a.
Arguments Blocked {A}.
Arguments Panic {A}.

Global Instance outcome_ret : MRet outcome := λ A a, Ok a.
Global Instance outcome_bind : MBind outcome := λ A B f m,
  match m with
  | Ok a => f a
  | Blocked => Blocked
  | Panic => Panic
  end.

(** Dereferencing: an address outside the store is a nil/invalid pointer. *)
Definition deref {A} (heap : list A) (ptr : nat) : outcome A :=
  match heap !! ptr with
  | Some a => Ok a
  | None => Panic
  end.

Definition deref_opt {A} (o : option A) : outcome A :=
  match o with
  | Some a => Ok a
  | None => Panic
  end.

(** [x++] on a [uint64]. *)
Definition uint64_incr (n : N) : N := (n + 1) mod 2 ^ 64.

Record chan (A : Type) : Type := mkChan {
  buf : list A;
  cap : nat;
  chan_closed : bool;
}.
Arguments mkChan {A} buf cap chan_closed.
Arguments buf {A} c.
Arguments cap {A} c.
Arguments chan_closed {A} c.

(** [make(chan A, n)] *)
Definition make_chan {A} (n : nat) : chan A := mkChan [] n false.

Inductive send_result (A : Type) : Type :=
  | Sent (c : chan A)
  | SendFull
  | SendClosed.
Arguments Sent {A} c.
Arguments SendFull {A}.
Arguments SendClosed {A}.

(** One attempt at [c <- v]: a closed channel panics, a full buffer cannot
    take the value. *)
Definition chan_try_send {A} (c : chan A) (v : A) : send_result A :=
  if chan_closed c then SendClosed
  else if (length (buf c) <? cap c)%nat
       then Sent (mkChan (buf c ++ [v]) (cap c) false)
       else SendFull.

(** The statement [c <- v] outside a [select]. *)
Definition chan_send {A} (c : chan A) (v : A) : outcome (chan A) :=
  match chan_try_send c v with
  | Sent c' => Ok c'
  | SendFull => Blocked
  | SendClosed => Panic
  end.

Inductive recv_result (A : Type) : Type :=
  | Recvd (v : A) (c : chan A)
  | RecvClosed
  | RecvEmpty.
Arguments Recvd {A} v c.
Arguments RecvClosed {A}.
Arguments RecvEmpty {A}.

(** One attempt at [v, ok := <-c]: buffered values are delivered first, also
    after the channel was closed. *)
Definition chan_try_recv {A} (c : chan A) : recv_result A :=
  match buf c with
  | v :: rest => Recvd v (mkChan rest (cap c) (chan_closed c))
  | [] => if chan_closed c then RecvClosed else RecvEmpty
  end.

Definition recv_ready {A} (r : recv_result A) : bool :=
  match r with
  | RecvEmpty => false
  | _ => true
  end.

(** [close(c)] *)
Definition chan_close {A} (c : chan A) : outcome (chan A) :=
  if chan_closed c then Panic else Ok (mkChan (buf c) (cap c) true).

(** A [select] over a receive and a [ctx.Done()]: when both are ready the
    runtime picks one of them, [pick] records which. *)
Inductive select_case : Type := RecvCase | DoneCase.

Definition select2 (recv_is_ready done : bool) (pick : select_case)
  : option select_case :=
  match recv_is_ready, done with
  | true, true => Some pick
  | true, false => Some RecvCase
  | false, true => Some DoneCase
  | false, false => None
  end.

(** ** The messages of the supervisor API *)

Module api.

(** Modelled from the spec: the generated message types of the
    notification API ([api.NotifyRequest], [api.NotifyResponse],
    [api.SubscribeRequest], [api.SubscribeResponse], [api.RespondRequest],
    [api.RespondResponse]) are declared outside this file; their fields
    are the ones the broker reads and the data model lists. *)
Inductive NotifyRequest_Level : Type := ERROR | WARNING | INFO.

Record NotifyRequest_Open : Type := { Urls : list string }.

Record NotifyRequest_Preview : Type := { Url : string; External : bool }.

Record NotifyRequest : Type := {
  Level : NotifyRequest_Level;
  Message : string;
  Actions : list string;
  Open : option NotifyRequest_Open;
  Preview : option NotifyRequest_Preview;
  Active : bool;
}.

Record NotifyResponse_Command : Type := { Cmd : string; Args : list string }.

Record NotifyResponse : Type := {
  Action : string;
  Command : option NotifyResponse_Command;
}.

Record SubscribeRequest : Type := { SubscribeActive : bool }.

Record SubscribeResponse : Type := {
  RequestId : N;
  Request : NotifyRequest;
}.

Record RespondRequest : Type := {
  RespondRequestId : N;
  Response : option NotifyResponse;
}.

Inductive RespondResponse : Type := RespondAck.

(** [&api.NotifyResponse{}] *)
Definition emptyNotifyResponse : NotifyResponse :=
  {| Action := ""; Command := None |}.

End api.
Import api.

(** The errors the three calls return: a gRPC status code, or the error of
    the caller's own context. *)
Inductive code : Type :=
  | ResourceExhausted
  | Aborted
  | DeadlineExceeded
  | InvalidArgument
  | Internal.

Inductive ctx_error : Type := Canceled | CtxDeadlineExceeded.

Inductive error : Type :=
  | Status (c : code)
  | CtxErr (e : ctx_error).

(** A [context.Context] as the broker sees it: [None] while it is live,
    [Some e] once [Done()] is closed, with [Err() = e]. *)
Definition context : Type := option ctx_error.

Definition NotifierMaxPendingNotifications : nat := 120.
Definition SubscriberMaxPendingNotifications : nat := 100.

(** ** Classification and validation *)

Definition isBlocking (req : NotifyRequest) : bool :=
  (0 <? length (Actions req))%nat || bool_decide (Open req ≠ None)
  || bool_decide (Preview req ≠ None).

(** The loop of [validateResponse] over [req.Actions]. *)
Fixpoint action_allowed (actions : list string) (action : string) : bool :=
  match actions with
  | [] => false
  | allowedAction :: rest =>
      if String.eqb allowedAction action then true
      else action_allowed rest action
  end.

Definition validateResponse (resp : NotifyResponse) (req : NotifyRequest) : bool :=
  match Command resp with
  | Some command => negb (String.eqb (Cmd command) "")
  | None =>
      if String.eqb (Action resp) "" then true
      else action_allowed (Actions req) (Action resp)
  end.

(** ** Broker-internal objects *)

Module Pending.

(** [sync.Once] is the flag [once]: set by the first [close]. *)
Record pendingNotification : Type := mk {
  message : SubscribeResponse;
  responseChannel : chan NotifyResponse;
  once : bool;
  closed : bool;
}.

Definition close (pending : pendingNotification) : outcome pendingNotification :=
  if once pending then Ok pending
  else
    channel ← chan_close (responseChannel pending);
    Ok (mk (message pending) channel true true).

Definition with_channel (pending : pendingNotification)
    (channel : chan NotifyResponse) : pendingNotification :=
  mk (message pending) channel (once pending) (closed pending).

End Pending.

Module Subscription.

(** [cancel] releases a context nothing else listens to; [cancelled]
    records that it was called. *)
Record subscription : Type := mk {
  id : N;
  active : bool;
  channel : chan SubscribeResponse;
  once : bool;
  closed : bool;
  cancelled : bool;
}.

Definition close (subscription : subscription) : outcome Subscription.subscription :=
  if once subscription then Ok subscription
  else
    channel ← chan_close (channel subscription);
    Ok (mk (id subscription) (active subscription) channel true true true).

Definition supports (s : subscription) (req : NotifyRequest) : bool :=
  bool_decide (active s = Active req).

Definition with_channel (s : subscription)
    (channel : chan SubscribeResponse) : subscription :=
  mk (id s) (active s) channel (once s) (closed s) (cancelled s).

End Subscription.

Abbreviation pendingNotification := Pending.pendingNotification.
Abbreviation subscription := Subscription.subscription.

(** ** The broker state *)

(** The two Go maps hold pointers: [subscriptions] and
    [pendingNotifications] map an id to an address in [subscription_store]
    and [pending_store].  Objects are never freed here: a producer or a
    subscriber may still hold the pointer after its table entry is gone. *)
Record NotificationService : Type := mkService {
  nextSubscriptionID : N;
  subscriptions : gmap N nat;
  nextNotificationID : N;
  pendingNotifications : gmap N nat;
  subscription_store : list subscription;
  pending_store : list pendingNotification;
}.

Definition NewNotificationService : NotificationService :=
  mkService 0 ∅ 0 ∅ [] [].

Definition set_nextSubscriptionID (n : N) (srv : NotificationService) :=
  mkService n (subscriptions srv) (nextNotificationID srv)
    (pendingNotifications srv) (subscription_store srv) (pending_store srv).

Definition set_subscriptions (m : gmap N nat) (srv : NotificationService) :=
  mkService (nextSubscriptionID srv) m (nextNotificationID srv)
    (pendingNotifications srv) (subscription_store srv) (pending_store srv).

Definition set_nextNotificationID (n : N) (srv : NotificationService) :=
  mkService (nextSubscriptionID srv) (subscriptions srv) n
    (pendingNotifications srv) (subscription_store srv) (pending_store srv).

Definition set_pendingNotifications (m : gmap N nat) (srv : NotificationService) :=
  mkService (nextSubscriptionID srv) (subscriptions srv) (nextNotificationID srv)
    m (subscription_store srv) (pending_store srv).

Definition set_subscription_store (h : list subscription) (srv : NotificationService) :=
  mkService (nextSubscriptionID srv) (subscriptions srv) (nextNotificationID srv)
    (pendingNotifications srv) h (pending_store srv).

Definition set_pending_store (h : list pendingNotification) (srv : NotificationService) :=
  mkService (nextSubscriptionID srv) (subscriptions srv) (nextNotificationID srv)
    (pendingNotifications srv) (subscription_store srv) h.

(** Writing through a pointer. *)
Definition store_subscription (ptr : nat) (s : subscription)
    (srv : NotificationService) : NotificationService :=
  set_subscription_store (<[ptr := s]> (subscription_store srv)) srv.

Definition store_pending (ptr : nat) (p : pendingNotification)
    (srv : NotificationService) : NotificationService :=
  set_pending_store (<[ptr := p]> (pending_store srv)) srv.

(** ** Dispatcher *)

(** The body of the fan-out loop of [notifySubscribers] for the key the
    iteration yields; a key whose entry is gone is not produced. *)
Definition notify_one (message : SubscribeResponse) (key : N)
    (srv : NotificationService) : outcome NotificationService :=
  match subscriptions srv !! key with
  | None => Ok srv
  | Some sptr =>
      subscription ← deref (subscription_store srv) sptr;
      if negb (Subscription.supports subscription (Request message)) then Ok srv
      else
        match chan_try_send (Subscription.channel subscription) message with
        | Sent channel =>
            Ok (store_subscription sptr
                  (Subscription.with_channel subscription channel) srv)
        | SendClosed => Panic
        | SendFull =>
            (* subscriber doesn't consume messages fast enough *)
            let srv := set_subscriptions
                         (delete (Subscription.id subscription) (subscriptions srv)) srv in
            subscription ← Subscription.close subscription;
            Ok (store_subscription sptr subscription srv)
        end
  end.

(** [for _, subscription := range srv.subscriptions]: [order] is the
    sequence of keys the runtime's map iteration yields. *)
Fixpoint notify_loop (message : SubscribeResponse) (order : list N)
    (srv : NotificationService) : outcome NotificationService :=
  match order with
  | [] => Ok srv
  | key :: rest =>
      srv ← notify_one message key srv;
      notify_loop message rest srv
  end.

Definition notifySubscribers (order : list N) (req : NotifyRequest)
    (srv : NotificationService) : outcome (NotificationService * nat) :=
  let requestID := nextNotificationID srv in
  let message := {| RequestId := requestID; Request := req |} in
  let srv := set_nextNotificationID (uint64_incr (nextNotificationID srv)) srv in
  srv ← notify_loop message order srv;
  let channel := make_chan 1 in
  let pending := Pending.mk message channel false false in
  let ptr := length (pending_store srv) in
  let srv := set_pending_store (pending_store srv ++ [pending]) srv in
  let srv := set_pendingNotifications (<[requestID := ptr]> (pendingNotifications srv)) srv in
  if negb (isBlocking req) then
    (* produce an immediate response *)
    channel ← chan_send channel emptyNotifyResponse;
    pending ← Pending.close (Pending.with_channel pending channel);
    Ok (store_pending ptr pending srv, ptr)
  else Ok (srv, ptr).

(** ** Producer path *)

(** The [select] of [Notify] on the handle [ptr] the dispatcher returned.
    [Blocked] is the producer waiting: neither case is ready. *)
Definition Notify_wait (ctx : context) (pick : select_case) (ptr : nat)
    (srv : NotificationService)
  : outcome (NotificationService * (NotifyResponse + error)) :=
  pending ← deref (pending_store srv) ptr;
  let received := chan_try_recv (Pending.responseChannel pending) in
  match select2 (recv_ready received) (bool_decide (is_Some ctx)) pick with
  | None => Blocked
  | Some RecvCase =>
      match received with
      | Recvd resp channel =>
          Ok (store_pending ptr (Pending.with_channel pending channel) srv, inl resp)
      | RecvClosed => Ok (srv, inr (Status Aborted))
      | RecvEmpty => Blocked
      end
  | Some DoneCase =>
      err ← deref_opt ctx;
      let requestID := RequestId (Pending.message pending) in
      (* make sure the notification has not been responded in between *)
      match pendingNotifications srv !! requestID with
      | Some _ =>
          let srv := set_pendingNotifications
                       (delete requestID (pendingNotifications srv)) srv in
          pending ← Pending.close pending;
          Ok (store_pending ptr pending srv, inr (CtxErr err))
      | None => Ok (srv, inr (CtxErr err))
      end
  end.

(** [Notify] with its three steps (the admission check, which reads the
    table without the mutex, the dispatcher, the wait) run back to back;
    [notifySubscribers] and [Notify_wait] are the steps other goroutines
    may interleave with. *)
Definition Notify (ctx : context) (pick : select_case) (order : list N)
    (req : NotifyRequest) (srv : NotificationService)
  : outcome (NotificationService * (NotifyResponse + error)) :=
  if (NotifierMaxPendingNotifications <=? size (pendingNotifications srv))%nat
  then Ok (srv, inr (Status ResourceExhausted))
  else
    '(srv, ptr) ← notifySubscribers order req srv;
    Notify_wait ctx pick ptr srv.

(** ** Subscriber path *)

(** The body of the replay loop of [subscribeLocked] for the key the
    iteration yields; [sptr] is the new subscription, whose [channel] the
    loop sends on. *)
Definition replay_one (sptr : nat) (key : N) (srv : NotificationService)
  : outcome NotificationService :=
  match pendingNotifications srv !! key with
  | None => Ok srv
  | Some ptr =>
      pending ← deref (pending_store srv) ptr;
      subscription ← deref (subscription_store srv) sptr;
      if negb (Subscription.supports subscription (Request (Pending.message pending)))
      then Ok srv
      else
        channel ← chan_send (Subscription.channel subscription) (Pending.message pending);
        let srv := store_subscription sptr
                     (Subscription.with_channel subscription channel) srv in
        if negb (isBlocking (Request (Pending.message pending)))
        then Ok (set_pendingNotifications (delete key (pendingNotifications srv)) srv)
        else Ok srv
  end.

(** [for id, pending := range srv.pendingNotifications] *)
Fixpoint replay_loop (sptr : nat) (order : list N) (srv : NotificationService)
  : outcome NotificationService :=
  match order with
  | [] => Ok srv
  | key :: rest =>
      srv ← replay_one sptr key srv;
      replay_loop sptr rest srv
  end.

Definition subscribeLocked (order : list N) (req : SubscribeRequest)
    (srv : NotificationService) : outcome (NotificationService * nat) :=
  (* account for some back pressure *)
  let capacity := size (pendingNotifications srv) in
  let capacity :=
    if (capacity <? SubscriberMaxPendingNotifications)%nat
    then SubscriberMaxPendingNotifications else capacity in
  let channel := make_chan capacity in
  let id := nextSubscriptionID srv in
  let srv := set_nextSubscriptionID (uint64_incr (nextSubscriptionID srv)) srv in
  let subscription := Subscription.mk id (SubscribeActive req) channel false false false in
  let sptr := length (subscription_store srv) in
  let srv := set_subscription_store (subscription_store srv ++ [subscription]) srv in
  let srv := set_subscriptions (<[id := sptr]> (subscriptions srv)) srv in
  srv ← replay_loop sptr order srv;
  Ok (srv, sptr).

Definition unsubscribeLocked (subscriptionID : N) (srv : NotificationService)
  : outcome NotificationService :=
  match subscriptions srv !! subscriptionID with
  | None => Ok srv
  | Some sptr =>
      subscription ← deref (subscription_store srv) sptr;
      let srv := set_subscriptions
                   (delete (Subscription.id subscription) (subscriptions srv)) srv in
      subscription ← Subscription.close subscription;
      Ok (store_subscription sptr subscription srv)
  end.

(** One turn of the loop of [Subscribe] on the subscription at [sptr]:
    [stream_done] is the state of the stream's context, [send_ok] whether
    [resp.Send] succeeds.  [inl m] is the message forwarded (the loop goes
    on), [inr r] the value [Subscribe] returns, with [None] for [nil]. *)
Definition Subscribe_turn (stream_done send_ok : bool) (pick : select_case)
    (sptr : nat) (srv : NotificationService)
  : outcome (NotificationService * (SubscribeResponse + option error)) :=
  subscription ← deref (subscription_store srv) sptr;
  let received := chan_try_recv (Subscription.channel subscription) in
  match select2 (recv_ready received) stream_done pick with
  | None => Blocked
  | Some RecvCase =>
      match received with
      | Recvd m channel =>
          let srv := store_subscription sptr
                       (Subscription.with_channel subscription channel) srv in
          if Subscription.closed subscription then Ok (srv, inr (Some (Status Aborted)))
          else if send_ok then Ok (srv, inl m)
          else Ok (srv, inr (Some (Status Internal)))
      | RecvClosed => Ok (srv, inr (Some (Status Aborted)))
      | RecvEmpty => Blocked
      end
  | Some DoneCase => Ok (srv, inr None)
  end.

(** ** Responder path *)

Definition Respond (req : RespondRequest) (srv : NotificationService)
  : outcome (NotificationService * (RespondResponse + error)) :=
  match pendingNotifications srv !! RespondRequestId req with
  | None => Ok (srv, inr (Status DeadlineExceeded))
  | Some ptr =>
      pending ← deref (pending_store srv) ptr;
      response ← deref_opt (Response req);
      if negb (validateResponse response (Request (Pending.message pending)))
      then Ok (srv, inr (Status InvalidArgument))
      else
        srv ← (if negb (Pending.closed pending) then
                 channel ← chan_send (Pending.responseChannel pending) response;
                 pending ← Pending.close (Pending.with_channel pending channel);
                 Ok (store_pending ptr pending srv)
               else Ok srv);
        Ok (set_pendingNotifications
              (delete (RequestId (Pending.message pending)) (pendingNotifications srv)) srv,
            inl RespondAck)
  end.

(** ** Map iteration, well-formed states, reachable states *)

(** Go leaves the order of [range] over a map unspecified: every key of the
    map is yielded once, in some order. *)
Definition ranges_over {V} (order : list N) (m : gmap N V) : Prop :=
  order ≡ₚ (map_to_list m).*1.

(** [sync.Once], the [closed] flag and the channel's own state move
    together; the response channel has one slot, which is empty as long as
    the entry is open. *)
Definition pending_wf (p : pendingNotification) : Prop :=
  Pending.once p = Pending.closed p ∧
  chan_closed (Pending.responseChannel p) = Pending.closed p ∧
  cap (Pending.responseChannel p) = 1%nat ∧
  (Pending.closed p = false → buf (Pending.responseChannel p) = []).

Definition subscription_wf (s : subscription) : Prop :=
  Subscription.once s = Subscription.closed s ∧
  chan_closed (Subscription.channel s) = Subscription.closed s.

(** What the code maintains under [srv.mutex]: table entries point into the
    stores and are filed under their own id; a registered subscription is
    open; a pending entry in the table is open exactly when its request is
    blocking. *)
Record inv (srv : NotificationService) : Prop := mkInv {
  inv_pending_store : Forall pending_wf (pending_store srv);
  inv_pending_table : ∀ id ptr,
    pendingNotifications srv !! id = Some ptr →
    ∃ p, pending_store srv !! ptr = Some p ∧
         RequestId (Pending.message p) = id ∧
         Pending.closed p = negb (isBlocking (Request (Pending.message p)));
  inv_subscription_store : Forall subscription_wf (subscription_store srv);
  inv_subscription_table : ∀ id sptr,
    subscriptions srv !! id = Some sptr →
    ∃ s, subscription_store srv !! sptr = Some s ∧
         Subscription.id s = id ∧
         Subscription.closed s = false;
}.

(** The atomic transitions of the broker: each critical section, and each
    channel operation a producer or a subscriber performs on its handle.
    The label names the goroutine's operation; a producer's wait carries
    the handle it waits on. *)
Inductive label : Type :=
  | L_notifySubscribers
  | L_Notify_wait (ptr : nat)
  | L_subscribeLocked
  | L_Subscribe_turn (sptr : nat)
  | L_unsubscribeLocked
  | L_Respond.

Inductive step : label → NotificationService → NotificationService → Prop :=
  | step_notifySubscribers order req srv srv' ptr :
      ranges_over order (subscriptions srv) →
      notifySubscribers order req srv = Ok (srv', ptr) →
      step L_notifySubscribers srv srv'
  | step_Notify_wait ctx pick ptr srv srv' r :
      Notify_wait ctx pick ptr srv = Ok (srv', r) →
      step (L_Notify_wait ptr) srv srv'
  | step_subscribeLocked order req srv srv' sptr :
      ranges_over order (pendingNotifications srv) →
      subscribeLocked order req srv = Ok (srv', sptr) →
      step L_subscribeLocked srv srv'
  | step_Subscribe_turn stream_done send_ok pick sptr srv srv' r :
      Subscribe_turn stream_done send_ok pick sptr srv = Ok (srv', r) →
      step (L_Subscribe_turn sptr) srv srv'
  | step_unsubscribeLocked subscriptionID srv srv' :
      unsubscribeLocked subscriptionID srv = Ok srv' →
      step L_unsubscribeLocked srv srv'
  | step_Respond req srv srv' r :
      Respond req srv = Ok (srv', r) →
      step L_Respond srv srv'.

Definition any_step (srv srv' : NotificationService) : Prop :=
  ∃ l, step l srv srv'.

Definition reachable (srv : NotificationService) : Prop :=
  rtc any_step NewNotificationService srv.

(** What the rest of the system does while the producer holding [ptr] is
    between its dispatcher call and its [select]. *)
Definition other_step (ptr : nat) (srv srv' : NotificationService) : Prop :=
  ∃ l, l ≠ L_Notify_wait ptr ∧ step l srv srv'.

(** The evicted form of a subscription: what [subscription.close()] leaves. *)
Definition evicted (s : subscription) : subscription :=
  Subscription.mk (Subscription.id s) (Subscription.active s)
    (mkChan (buf (Subscription.channel s)) (cap (Subscription.channel s)) true)
    true true true.

(** The queue of a subscription with one more envelope. *)
Definition enqueued (m : SubscribeResponse) (s : subscription) : subscription :=
  Subscription.with_channel s
    (mkChan (buf (Subscription.channel s) ++ [m]) (cap (Subscription.channel s)) false).

Definition queue_full (s : subscription) : bool :=
  negb (length (buf (Subscription.channel s)) <? cap (Subscription.channel s))%nat.

(** The pending entry the dispatcher files for a request. *)
Definition fresh_pending (requestID : N) (req : NotifyRequest) : pendingNotification :=
  if isBlocking req
  then Pending.mk {| RequestId := requestID; Request := req |} (mkChan [] 1 false) false false
  else Pending.mk {| RequestId := requestID; Request := req |}
         (mkChan [emptyNotifyResponse] 1 true) true true.

(** What the fan-out does to one subscription it visits. *)
Definition evicts (m : SubscribeResponse) (s : subscription) : bool :=
  Subscription.supports s (Request m) && queue_full s.

Definition fanned (m : SubscribeResponse) (s : subscription) : subscription :=
  if Subscription.supports s (Request m)
  then if queue_full s then evicted s else enqueued m s
  else s.

(** The registry [regs] and subscription store [sstore] a fan-out of [m]
    over the keys [order] leaves, starting from [srv]. *)
Definition fanout_of (m : SubscribeResponse) (order : list N)
    (srv : NotificationService) (regs : gmap N nat) (sstore : list subscription)
  : Prop :=
  length sstore = length (subscription_store srv) ∧
  (∀ k, k ∉ order → regs !! k = subscriptions srv !! k) ∧
  (∀ q, (∀ k, k ∈ order → subscriptions srv !! k ≠ Some q) →
        sstore !! q = subscription_store srv !! q) ∧
  (∀ k q s, k ∈ order → subscriptions srv !! k = Some q →
            subscription_store srv !! q = Some s →
            regs !! k = (if evicts m s then None else Some q) ∧
            sstore !! q = Some (fanned m s)).

(** The pending entry after [Respond] handed it [resp]. *)
Definition responded (resp : NotifyResponse) (p : pendingNotification)
  : pendingNotification :=
  Pending.mk (Pending.message p) (mkChan [resp] 1 true) true true.

(** The envelope the replay of [subscribeLocked] enqueues for the table key
    [key], for a joiner whose flag is [act]: the entry's message when the
    entry is eligible. *)
Definition replays (act : bool) (srv : NotificationService) (key : N)
  : option SubscribeResponse :=
  ptr ← pendingNotifications srv !! key;
  p ← pending_store srv !! ptr;
  if bool_decide (act = Active (Request (Pending.message p)))
  then Some (Pending.message p) else None.

(** Whether that replay removes the table entry under [key]. *)
Definition drops (act : bool) (srv : NotificationService) (key : N) : bool :=
  match replays act srv key with
  | Some m => negb (isBlocking (Request m))
  | None => false
  end.

(** The queue capacity [subscribeLocked] chooses. *)
Definition join_capacity (srv : NotificationService) : nat :=
  if (size (pendingNotifications srv) <? SubscriberMaxPendingNotifications)%nat
  then SubscriberMaxPendingNotifications else size (pendingNotifications srv).

(** The service once [subscribeLocked] has registered the joiner, before
    the replay. *)
Definition joined (act : bool) (n : nat) (srv : NotificationService)
  : NotificationService :=
  set_subscriptions
    (<[nextSubscriptionID srv := length (subscription_store srv)]> (subscriptions srv))
    (set_subscription_store
       (subscription_store srv
          ++ [Subscription.mk (nextSubscriptionID srv) act (make_chan n) false false false])
       (set_nextSubscriptionID (uint64_incr (nextSubscriptionID srv)) srv)).

(** ** A checker for the invariant *)

Definition pending_wfb (p : pendingNotification) : bool :=
  bool_decide (Pending.once p = Pending.closed p)
  && bool_decide (chan_closed (Pending.responseChannel p) = Pending.closed p)
  && bool_decide (cap (Pending.responseChannel p) = 1%nat)
  && (Pending.closed p || bool_decide (length (buf (Pending.responseChannel p)) = 0%nat)).

Definition subscription_wfb (s : subscription) : bool :=
  bool_decide (Subscription.once s = Subscription.closed s)
  && bool_decide (chan_closed (Subscription.channel s) = Subscription.closed s).

Definition pending_entryb (srv : NotificationService) (entry : N * nat) : bool :=
  match pending_store srv !! entry.2 with
  | Some p =>
      bool_decide (RequestId (Pending.message p) = entry.1)
      && bool_decide (Pending.closed p = negb (isBlocking (Request (Pending.message p))))
  | None => false
  end.

Definition subscription_entryb (srv : NotificationService) (entry : N * nat) : bool :=
  match subscription_store srv !! entry.2 with
  | Some s =>
      bool_decide (Subscription.id s = entry.1) && negb (Subscription.closed s)
  | None => false
  end.

Definition invb (srv : NotificationService) : bool :=
  forallb pending_wfb (pending_store srv)
  && forallb (pending_entryb srv) (map_to_list (pendingNotifications srv))
  && forallb subscription_wfb (subscription_store srv)
  && forallb (subscription_entryb srv) (map_to_list (subscriptions srv)).

(** What a caller gets back, without the service. *)
Definition result_of {R} (o : outcome (NotificationService * R)) : outcome R :=
  '(_, r) ← o; Ok r.

(** ** Concrete requests and services *)

Definition req_info (act : bool) : NotifyRequest :=
  {| Level := INFO; Message := "hi"; Actions := [];
     Open := None; Preview := None; Active := act |}.

Definition req_confirm : NotifyRequest :=
  {| Level := INFO; Message := "reload?"; Actions := ["yes"; "no"];
     Open := None; Preview := None; Active := true |}.

Definition resp_yes : NotifyResponse := {| Action := "yes"; Command := None |}.
Definition resp_maybe : NotifyResponse := {| Action := "maybe"; Command := None |}.

(** [n] producers dispatch [req] one after the other. *)
Definition dispatch_n (n : nat) (order : list N) (req : NotifyRequest)
    (srv : NotificationService) : outcome NotificationService :=
  Nat.iter n
    (λ o, srv ← o; '(srv, _) ← notifySubscribers order req srv; Ok srv)
    (Ok srv).

(** One blocking request is pending, nobody subscribed. *)
Definition srv_confirm : NotificationService :=
  mkService 0 ∅ 1 {[ 0 := 0%nat ]} [] [fresh_pending 0 req_confirm].

(** One non-blocking request was dispatched, nobody subscribed. *)
Definition srv_info : NotificationService :=
  mkService 0 ∅ 1 {[ 0 := 0%nat ]} [] [fresh_pending 0 (req_info true)].

(** 120 blocking requests are pending. *)
Definition srv_full_table : NotificationService :=
  mkService 0 ∅ 120
    (list_to_map ((λ n : nat, (N.of_nat n, n)) <$> seq 0 120)) []
    ((λ n : nat, fresh_pending (N.of_nat n) req_confirm) <$> seq 0 120).

(** A subscriber joined with [active = true] and never read; 100
    non-blocking requests were dispatched since. *)
Definition sub_full : subscription :=
  Subscription.mk 0 true
    (mkChan ((λ n : nat, {| RequestId := N.of_nat n; Request := req_info true |})
               <$> seq 0 100) 100 false)
    false false false.

Definition srv_full_queue : NotificationService :=
  mkService 1 {[ 0 := 0%nat ]} 100
    (list_to_map ((λ n : nat, (N.of_nat n, n)) <$> seq 0 100)) [sub_full]
    ((λ n : nat, fresh_pending (N.of_nat n) (req_info true)) <$> seq 0 100).

(** The service with nobody subscribed. *)
Definition without_subscribers (srv : NotificationService) : NotificationService :=
  set_subscription_store [] (set_subscriptions ∅ srv).

(** A blocking request (id 0) and a non-blocking one (id 1) are pending,
    both for active subscribers; nobody subscribed. *)
Definition srv_mixed : NotificationService :=
  mkService 0 ∅ 2 (<[ 1 := 1%nat ]> {[ 0 := 0%nat ]}) []
    [fresh_pending 0 req_confirm; fresh_pending 1 (req_info true)].

(** An entry as its producer may find it before the producer has received
    from it: open with an empty slot, or closed with a value in the slot. *)
Definition awaited (p : pendingNotification) : Prop :=
  pending_wf p ∧
  (Pending.closed p = true → buf (Pending.responseChannel p) ≠ []).

(** ** The whole subscriber call *)

(** What the stream and the runtime present to one iteration of the loop of
    [Subscribe]: whether the stream's context is done, whether [resp.Send]
    succeeds, and the case the [select] picks when both are ready. *)
Record turn : Type := mkTurn {
  stream_done : bool;
  send_ok : bool;
  turn_pick : select_case;
}.

(** Where [Subscribe] stands when it is observed: back in its caller with
    the returned error ([None] for [nil]), parked in the [select] with
    nothing ready, or still in the loop when the observed iterations end. *)
Inductive subscribe_status : Type :=
  | Returned (r : option error)
  | Parked
  | Looping.

(** The [for] loop of [Subscribe], one [turn] per iteration, with the
    messages handed to [resp.Send] with success, in order. *)
Fixpoint Subscribe_loop (turns : list turn) (sptr : nat) (srv : NotificationService)
  : outcome (NotificationService * list SubscribeResponse * subscribe_status) :=
  match turns with
  | [] => Ok (srv, [], Looping)
  | t :: rest =>
      match Subscribe_turn (stream_done t) (send_ok t) (turn_pick t) sptr srv with
      | Ok (srv, inl m) =>
          '(srv, ms, st) ← Subscribe_loop rest sptr srv;
          Ok (srv, m :: ms, st)
      | Ok (srv, inr r) => Ok (srv, [], Returned r)
      | Blocked => Ok (srv, [], Parked)
      | Panic => Panic
      end
  end.

(** [Subscribe] when nothing else runs meanwhile: the registration, the
    loop, and the deferred [unsubscribeLocked] once the loop returns. *)
Definition Subscribe (order : list N) (turns : list turn) (req : SubscribeRequest)
    (srv : NotificationService)
  : outcome (NotificationService * list SubscribeResponse * subscribe_status) :=
  '(srv, sptr) ← subscribeLocked order req srv;
  subscription ← deref (subscription_store srv) sptr;
  let id := Subscription.id subscription in
  '(srv, ms, st) ← Subscribe_loop turns sptr srv;
  match st with
  | Returned r =>
      srv ← unsubscribeLocked id srv;
      Ok (srv, ms, st)
  | _ => Ok (srv, ms, st)
  end.

(** ** What a response channel may hold *)

(** At most one value, and only values [validateResponse] accepts for the
    entry's request. *)
Definition slot_ok (p : pendingNotification) : Prop :=
  (length (buf (Pending.responseChannel p)) ≤ 1)%nat ∧
  Forall (λ resp, validateResponse resp (Request (Pending.message p)) = true)
    (buf (Pending.responseChannel p)).

(** A subscriber joined with [active = true]; nothing was dispatched. *)
Definition srv_joined : NotificationService :=
  mkService 1 {[ 0 := 0%nat ]} 0 ∅
    [Subscription.mk 0 true (mkChan [] 100 false) false false false] [].

(** * Properties *)

(** ** Channels and the outcome monad *)

Lemma bind_Ok {A B} (f : A → outcome B) (m : outcome A) (b : B) :
  m ≫= f = Ok b → ∃ a, m = Ok a ∧ f a = Ok b.
Proof. destruct m; simpl; intros H; try discriminate. eauto. Qed.

Lemma deref_Ok {A} (heap : list A) ptr a :
  deref heap ptr = Ok a ↔ heap !! ptr = Some a.
Proof. unfold deref. destruct (heap !! ptr); split; congruence. Qed.

Lemma action_allowed_elem_of (actions : list string) (action : string) :
  action_allowed actions action = true ↔ action ∈ actions.
Proof.
  induction actions as [|a rest IH]; simpl.
  - split; [discriminate | intros H; inversion H].
  - destruct (String.eqb_spec a action) as [->|Hne].
    + split; [intros _; left | done].
    + rewrite IH. split; [by right | intros H].
      apply elem_of_cons in H as [->|H]; [done | done].
Qed.

Lemma validateResponse_true (resp : NotifyResponse) (req : NotifyRequest) :
  validateResponse resp req = true ↔
    (∃ command, Command resp = Some command ∧ Cmd command ≠ "") ∨
    (Command resp = None ∧ Action resp = "") ∨
    (Command resp = None ∧ Action resp ∈ Actions req).
Proof.
  unfold validateResponse. destruct (Command resp) as [command|].
  - destruct (String.eqb_spec (Cmd command) "") as [He|Hne]; simpl.
    + split; [discriminate|]. intros [(c & [= <-] & Hc)|[[? _]|[? _]]]; done.
    + split; [|done]. intros _. left. eauto.
  - destruct (String.eqb_spec (Action resp) "") as [He|Hne].
    + split; [|done]. intros _. right. left. done.
    + rewrite action_allowed_elem_of. split.
      * intros H. right. right. done.
      * intros [(c & ? & _)|[[_ ?]|[_ ?]]]; done.
Qed.

Lemma chan_send_Ok {A} (c c' : chan A) (v : A) :
  chan_send c v = Ok c' →
  chan_closed c = false ∧ (length (buf c) < cap c)%nat ∧
  c' = mkChan (buf c ++ [v]) (cap c) false.
Proof.
  unfold chan_send, chan_try_send.
  destruct (chan_closed c); [discriminate|].
  destruct (Nat.ltb_spec (length (buf c)) (cap c)); [|discriminate].
  intros [= <-]. done.
Qed.

Lemma chan_send_room {A} (c : chan A) (v : A) :
  chan_closed c = false → (length (buf c) < cap c)%nat →
  chan_send c v = Ok (mkChan (buf c ++ [v]) (cap c) false).
Proof.
  intros Hc Hl. unfold chan_send, chan_try_send. rewrite Hc.
  destruct (Nat.ltb_spec (length (buf c)) (cap c)); [done | lia].
Qed.

(** ** Closing is idempotent and keeps objects well formed *)

Lemma Pending_close_open (p : pendingNotification) :
  pending_wf p → Pending.closed p = false →
  Pending.close p
  = Ok (Pending.mk (Pending.message p)
          (mkChan (buf (Pending.responseChannel p)) (cap (Pending.responseChannel p)) true)
          true true).
Proof.
  intros (Ho & Hc & _) Hcl. unfold Pending.close, chan_close.
  rewrite Ho, Hcl, Hc, Hcl. done.
Qed.

Lemma Pending_close_closed (p : pendingNotification) :
  pending_wf p → Pending.closed p = true → Pending.close p = Ok p.
Proof. intros (Ho & _) Hcl. unfold Pending.close. by rewrite Ho, Hcl. Qed.

Lemma Pending_close_wf (p p' : pendingNotification) :
  pending_wf p → Pending.close p = Ok p' →
  pending_wf p' ∧ Pending.closed p' = true ∧ Pending.message p' = Pending.message p.
Proof.
  intros Hwf. destruct (Pending.closed p) eqn:Hcl.
  - rewrite Pending_close_closed by done. intros [= <-]. done.
  - rewrite Pending_close_open by done. intros [= <-].
    destruct Hwf as (_ & _ & Hcap & _). repeat split; done.
Qed.

Lemma Subscription_close_open (s : subscription) :
  subscription_wf s → Subscription.closed s = false →
  Subscription.close s = Ok (evicted s).
Proof.
  intros (Ho & Hc) Hcl. unfold Subscription.close, chan_close.
  rewrite Ho, Hcl, Hc, Hcl. done.
Qed.

Lemma Subscription_close_closed (s : subscription) :
  subscription_wf s → Subscription.closed s = true → Subscription.close s = Ok s.
Proof. intros (Ho & _) Hcl. unfold Subscription.close. by rewrite Ho, Hcl. Qed.

Lemma Subscription_close_wf (s s' : subscription) :
  subscription_wf s → Subscription.close s = Ok s' →
  subscription_wf s' ∧ Subscription.id s' = Subscription.id s.
Proof.
  intros Hwf. destruct (Subscription.closed s) eqn:Hcl.
  - rewrite Subscription_close_closed by done. intros [= <-]. done.
  - rewrite Subscription_close_open by done. intros [= <-]. done.
Qed.

(** ** Writes that keep the invariant *)

Lemma inv_store_subscription srv sptr s s' :
  inv srv → subscription_store srv !! sptr = Some s →
  subscription_wf s' → Subscription.id s' = Subscription.id s →
  Subscription.closed s' = Subscription.closed s →
  inv (store_subscription sptr s' srv).
Proof.
  intros [Hps Hpt Hss Hst] Hs Hwf Hid Hcl. split; simpl; try done.
  - by apply Forall_insert.
  - intros k q Hk. destruct (Hst k q Hk) as (s0 & Hs0 & Hid0 & Hcl0).
    destruct (decide (q = sptr)) as [->|Hne].
    + exists s'. rewrite list_lookup_insert_eq by (by eapply lookup_lt_Some).
      simplify_eq. split; [done|]. split; congruence.
    + exists s0. by rewrite list_lookup_insert_ne.
Qed.

Lemma inv_unregister srv sptr s s' :
  inv srv → subscription_store srv !! sptr = Some s → subscription_wf s' →
  inv (store_subscription sptr s'
         (set_subscriptions (delete (Subscription.id s) (subscriptions srv)) srv)).
Proof.
  intros [Hps Hpt Hss Hst] Hs Hwf. split; simpl; try done.
  - by apply Forall_insert.
  - intros k q Hk. apply lookup_delete_Some in Hk as [Hne Hk].
    destruct (Hst k q Hk) as (s0 & Hs0 & Hid0 & Hcl0).
    exists s0. split; [|done].
    rewrite list_lookup_insert_ne; [done|]. intros ->. by simplify_eq.
Qed.

Lemma inv_store_pending srv ptr p p' :
  inv srv → pending_store srv !! ptr = Some p →
  pending_wf p' → Pending.message p' = Pending.message p →
  Pending.closed p' = Pending.closed p →
  inv (store_pending ptr p' srv).
Proof.
  intros [Hps Hpt Hss Hst] Hp Hwf Hm Hcl. split; simpl; try done.
  - by apply Forall_insert.
  - intros k q Hk. destruct (Hpt k q Hk) as (p0 & Hp0 & Hid0 & Hcl0).
    destruct (decide (q = ptr)) as [->|Hne].
    + exists p'. rewrite list_lookup_insert_eq by (by eapply lookup_lt_Some).
      simplify_eq. rewrite Hm, Hcl. done.
    + exists p0. by rewrite list_lookup_insert_ne.
Qed.

Lemma inv_delete_pending srv key :
  inv srv → inv (set_pendingNotifications (delete key (pendingNotifications srv)) srv).
Proof.
  intros [Hps Hpt Hss Hst]. split; simpl; try done.
  intros k q Hk. apply lookup_delete_Some in Hk as [_ Hk]. eauto.
Qed.

Lemma inv_retire_pending srv ptr p p' :
  inv srv → pending_store srv !! ptr = Some p → pending_wf p' →
  inv (store_pending ptr p'
         (set_pendingNotifications
            (delete (RequestId (Pending.message p)) (pendingNotifications srv)) srv)).
Proof.
  intros [Hps Hpt Hss Hst] Hp Hwf. split; simpl; try done.
  - by apply Forall_insert.
  - intros k q Hk. apply lookup_delete_Some in Hk as [Hne Hk].
    destruct (Hpt k q Hk) as (p0 & Hp0 & Hid0 & Hcl0).
    exists p0. split; [|done].
    rewrite list_lookup_insert_ne; [done|]. intros ->. by simplify_eq.
Qed.

Lemma inv_NewNotificationService : inv NewNotificationService.
Proof.
  split; simpl; try done; intros k q Hk; by rewrite lookup_empty in Hk.
Qed.

(** ** The fan-out loop *)

Lemma notify_one_spec m key srv :
  inv srv →
  match subscriptions srv !! key with
  | None => notify_one m key srv = Ok srv
  | Some sptr =>
      ∃ s, subscription_store srv !! sptr = Some s ∧
           Subscription.id s = key ∧ Subscription.closed s = false ∧
           notify_one m key srv
           = Ok (store_subscription sptr (fanned m s)
                   (set_subscriptions
                      (if evicts m s then delete key (subscriptions srv)
                       else subscriptions srv) srv))
  end.
Proof.
  intros Hinv. unfold notify_one.
  destruct (subscriptions srv !! key) as [sptr|] eqn:Hk; [|done].
  destruct (inv_subscription_table _ Hinv _ _ Hk) as (s & Hs & Hid & Hcl).
  exists s. repeat split; try done.
  assert (Hwf : subscription_wf s).
  { eapply Forall_lookup_1; [apply (inv_subscription_store _ Hinv) | done]. }
  unfold deref. rewrite Hs. simpl.
  unfold fanned, evicts, queue_full, chan_try_send.
  destruct (Subscription.supports s (Request m)); simpl.
  - pose proof Hwf as [_ Hc]. rewrite Hc, Hcl.
    destruct (length (buf (Subscription.channel s)) <? cap (Subscription.channel s))%nat;
      simpl.
    + done.
    + rewrite Subscription_close_open by done. simpl. by rewrite Hid.
  - unfold store_subscription, set_subscription_store, set_subscriptions. simpl.
    rewrite list_insert_id by done. by destruct srv.
Qed.

Lemma fanned_wf m s :
  subscription_wf s → Subscription.closed s = false → subscription_wf (fanned m s).
Proof.
  intros [Ho Hc] Hcl. unfold fanned.
  destruct (Subscription.supports _ _); [|done].
  destruct (queue_full s); [done|]. split; simpl; congruence.
Qed.

Lemma fanned_id m s : Subscription.id (fanned m s) = Subscription.id s.
Proof.
  unfold fanned. destruct (Subscription.supports _ _); [|done].
  by destruct (queue_full s).
Qed.

Lemma notify_one_inv m key srv srv' :
  inv srv → notify_one m key srv = Ok srv' → inv srv'.
Proof.
  intros Hinv. pose proof (notify_one_spec m key srv Hinv) as Hspec.
  destruct (subscriptions srv !! key) as [sptr|] eqn:Hk.
  - destruct Hspec as (s & Hs & Hid & Hcl & ->). intros [= <-].
    assert (Hwf : subscription_wf s).
    { eapply Forall_lookup_1; [apply (inv_subscription_store _ Hinv) | done]. }
    destruct (evicts m s) eqn:He.
    + rewrite <- Hid. eapply inv_unregister; [done..|].
      by apply fanned_wf.
    + replace (set_subscriptions (subscriptions srv) srv) with srv by (by destruct srv).
      eapply inv_store_subscription; [done..| by apply fanned_wf | apply fanned_id |].
      unfold evicts in He. unfold fanned.
      destruct (Subscription.supports s (Request m)); [|done].
      simpl in He. by rewrite He.
  - rewrite Hspec. by intros [= <-].
Qed.

Lemma notify_loop_inv m order srv srv' :
  inv srv → notify_loop m order srv = Ok srv' → inv srv'.
Proof.
  revert srv. induction order as [|key rest IH]; simpl; intros srv Hinv.
  - by intros [= <-].
  - intros H. apply bind_Ok in H as (srv1 & H1 & H2).
    eapply IH; [|done]. by eapply notify_one_inv.
Qed.

Lemma inv_registered_inj srv k1 k2 q :
  inv srv → subscriptions srv !! k1 = Some q → subscriptions srv !! k2 = Some q →
  k1 = k2.
Proof.
  intros Hinv H1 H2.
  destruct (inv_subscription_table _ Hinv _ _ H1) as (s1 & Hs1 & <- & _).
  destruct (inv_subscription_table _ Hinv _ _ H2) as (s2 & Hs2 & <- & _).
  congruence.
Qed.

(** The fan-out visits every key of [order] once: it leaves the rest of the
    service alone, and leaves each visited subscription [fanned]. *)
Lemma notify_loop_spec m order srv :
  inv srv → NoDup order →
  ∃ regs sstore,
    notify_loop m order srv
    = Ok (mkService (nextSubscriptionID srv) regs (nextNotificationID srv)
            (pendingNotifications srv) sstore (pending_store srv)) ∧
    fanout_of m order srv regs sstore.
Proof.
  unfold fanout_of. intros Hinv Hnd. revert srv Hinv.
  induction Hnd as [|key rest Hnotin Hnd IH]; intros srv Hinv.
  { exists (subscriptions srv), (subscription_store srv). simpl.
    split; [by destruct srv|]. split; [done|]. split; [done|]. split; [done|].
    intros k q s Hk. by apply elem_of_nil in Hk. }
  simpl. pose proof (notify_one_spec m key srv Hinv) as Hone.
  destruct (subscriptions srv !! key) as [sptr|] eqn:Hkey.
  - destruct Hone as (s & Hs & Hid & Hcl & Hone).
    assert (Hinv1 : inv (store_subscription sptr (fanned m s)
              (set_subscriptions (if evicts m s then delete key (subscriptions srv)
                                  else subscriptions srv) srv)))
      by (by eapply notify_one_inv).
    rewrite Hone. simpl.
    destruct (IH _ Hinv1) as (regs & sstore & Hrun & Hlen & Ha & Hb & Hc).
    simpl in *. exists regs, sstore. split; [done|].
    assert (Hregs1 : ∀ k q, (if evicts m s then delete key (subscriptions srv)
                              else subscriptions srv) !! k = Some q →
                            subscriptions srv !! k = Some q).
    { intros k q. destruct (evicts m s); [|done].
      intros Hk. by apply lookup_delete_Some in Hk as [_ Hk]. }
    assert (Hregs1_ne : ∀ k, k ≠ key →
              (if evicts m s then delete key (subscriptions srv)
               else subscriptions srv) !! k = subscriptions srv !! k).
    { intros k Hne. destruct (evicts m s); [|done]. by rewrite lookup_delete_ne. }
    split; [by rewrite Hlen, length_insert|].
    split; [|split].
    + intros k Hk. apply not_elem_of_cons in Hk as [Hne Hk].
      rewrite Ha by done. by apply Hregs1_ne.
    + intros q Hq. rewrite Hb.
      * apply list_lookup_insert_ne. intros ->. eapply Hq; [left|done].
      * intros k Hk Hk'. eapply Hq; [by right | by apply Hregs1].
    + intros k q s0 Hk Hkq Hq. apply elem_of_cons in Hk as [Heq|Hk].
      * subst k. assert (q = sptr) as -> by congruence.
        assert (s0 = s) as -> by congruence.
        rewrite Ha by done. split.
        -- destruct (evicts m s); [apply lookup_delete_eq | done].
        -- rewrite Hb.
           ++ apply list_lookup_insert_eq. by eapply lookup_lt_Some.
           ++ intros k Hk Hk'. apply Hregs1 in Hk'.
              assert (k = key) as -> by exact (inv_registered_inj srv _ _ _ Hinv Hk' Hkey).
              done.
      * assert (k ≠ key) as Hne by (intros ->; done).
        assert (q ≠ sptr) as Hqne.
        { intros ->. apply Hne. exact (inv_registered_inj srv _ _ _ Hinv Hkq Hkey). }
        apply Hc; [done | by rewrite Hregs1_ne |].
        by rewrite list_lookup_insert_ne.
  - rewrite Hone. simpl.
    destruct (IH _ Hinv) as (regs & sstore & Hrun & Hlen & Ha & Hb & Hc).
    exists regs, sstore. split; [done|]. split; [done|].
    split; [|split].
    + intros k Hk. apply not_elem_of_cons in Hk as [_ Hk]. by apply Ha.
    + intros q Hq. apply Hb. intros k Hk. apply Hq. by right.
    + intros k q s Hk Hkq Hq. apply elem_of_cons in Hk as [Heq|Hk]; [congruence|].
      by eapply Hc.
Qed.

(** ** The dispatcher *)

Lemma ranges_over_NoDup {V} (order : list N) (m : gmap N V) :
  ranges_over order m → NoDup order.
Proof.
  unfold ranges_over. intros ->. apply NoDup_fst_map_to_list.
Qed.

Lemma ranges_over_elem_of {V} (order : list N) (m : gmap N V) k :
  ranges_over order m → k ∈ order ↔ is_Some (m !! k).
Proof.
  unfold ranges_over. intros ->. rewrite list_elem_of_fmap. split.
  - intros ([k' v] & -> & Hin). apply elem_of_map_to_list in Hin. eauto.
  - intros [v Hv]. exists (k, v). split; [done|]. by apply elem_of_map_to_list.
Qed.

Lemma ranges_over_length {V} (order : list N) (m : gmap N V) :
  ranges_over order m → length order = size m.
Proof.
  unfold ranges_over. intros ->. rewrite length_fmap. apply length_map_to_list.
Qed.

Lemma insert_at_end {A} (l : list A) (x y : A) :
  <[length l := y]> (l ++ [x]) = l ++ [y].
Proof. rewrite insert_app_r_alt by lia. by rewrite Nat.sub_diag. Qed.

(** The dispatcher is the fan-out followed by filing [fresh_pending]. *)
Lemma notifySubscribers_unfold order req srv :
  notifySubscribers order req srv
  = srv1 ← notify_loop {| RequestId := nextNotificationID srv; Request := req |} order
             (set_nextNotificationID (uint64_incr (nextNotificationID srv)) srv);
    Ok (set_pendingNotifications
          (<[nextNotificationID srv := length (pending_store srv1)]>
             (pendingNotifications srv1))
          (set_pending_store
             (pending_store srv1 ++ [fresh_pending (nextNotificationID srv) req]) srv1),
        length (pending_store srv1)).
Proof.
  unfold notifySubscribers, fresh_pending.
  destruct (notify_loop _ order _) as [srv1| |]; simpl; try done.
  destruct (isBlocking req); simpl; [done|].
  unfold store_pending, set_pending_store, set_pendingNotifications. simpl.
  by rewrite insert_at_end.
Qed.

Lemma fresh_pending_wf requestID req : pending_wf (fresh_pending requestID req).
Proof. unfold fresh_pending. by destruct (isBlocking req). Qed.

Lemma fresh_pending_message requestID req :
  Pending.message (fresh_pending requestID req)
  = {| RequestId := requestID; Request := req |}.
Proof. unfold fresh_pending. by destruct (isBlocking req). Qed.

Lemma fresh_pending_closed requestID req :
  Pending.closed (fresh_pending requestID req) = negb (isBlocking req).
Proof. unfold fresh_pending. by destruct (isBlocking req). Qed.

Lemma inv_file_pending srv requestID req :
  inv srv →
  inv (set_pendingNotifications
         (<[requestID := length (pending_store srv)]> (pendingNotifications srv))
         (set_pending_store (pending_store srv ++ [fresh_pending requestID req]) srv)).
Proof.
  intros [Hps Hpt Hss Hst]. split; simpl; try done.
  - apply Forall_app. split; [done|]. apply Forall_singleton, fresh_pending_wf.
  - intros k q Hk. apply lookup_insert_Some in Hk as [[<- <-]|[Hne Hk]].
    + exists (fresh_pending requestID req).
      rewrite lookup_app_r, Nat.sub_diag by lia. split; [done|].
      by rewrite fresh_pending_message, fresh_pending_closed.
    + destruct (Hpt k q Hk) as (p & Hp & Hid & Hcl). exists p.
      split; [|done]. rewrite lookup_app_l; [done|]. by eapply lookup_lt_Some.
Qed.

Lemma inv_set_nextNotificationID n srv :
  inv srv → inv (set_nextNotificationID n srv).
Proof. by intros []. Qed.

Lemma notifySubscribers_inv order req srv srv' ptr :
  inv srv → notifySubscribers order req srv = Ok (srv', ptr) → inv srv'.
Proof.
  intros Hinv. rewrite notifySubscribers_unfold. intros H.
  apply bind_Ok in H as (srv1 & Hloop & [= <- <-]).
  apply inv_file_pending. eapply notify_loop_inv; [|done].
  by apply inv_set_nextNotificationID.
Qed.

(** The dispatcher never fails and never waits: it files [fresh_pending]
    under the next id at a new address, after the fan-out. *)
Lemma notifySubscribers_spec order req srv :
  inv srv → NoDup order →
  ∃ regs sstore,
    notifySubscribers order req srv
    = Ok (mkService (nextSubscriptionID srv) regs
            (uint64_incr (nextNotificationID srv))
            (<[nextNotificationID srv := length (pending_store srv)]>
               (pendingNotifications srv))
            sstore
            (pending_store srv ++ [fresh_pending (nextNotificationID srv) req]),
          length (pending_store srv)) ∧
    fanout_of {| RequestId := nextNotificationID srv; Request := req |}
      order srv regs sstore.
Proof.
  intros Hinv Hnd. rewrite notifySubscribers_unfold.
  destruct (notify_loop_spec {| RequestId := nextNotificationID srv; Request := req |}
              order _ (inv_set_nextNotificationID
                         (uint64_incr (nextNotificationID srv)) _ Hinv) Hnd)
    as (regs & sstore & Hrun & Hfan).
  exists regs, sstore. rewrite Hrun. simpl. done.
Qed.

(** ** The producer's wait *)

Lemma Notify_wait_inv ctx pick ptr srv srv' r :
  inv srv → Notify_wait ctx pick ptr srv = Ok (srv', r) → inv srv'.
Proof.
  intros Hinv. unfold Notify_wait. intros H.
  apply bind_Ok in H as (p & Hp & H). apply deref_Ok in Hp.
  assert (Hwf : pending_wf p).
  { eapply Forall_lookup_1; [apply (inv_pending_store _ Hinv) | done]. }
  destruct (select2 _ _ _) as [[]|]; [| |done].
  - unfold chan_try_recv in H.
    destruct (buf (Pending.responseChannel p)) as [|v rest] eqn:Hbuf.
    + destruct (chan_closed _); [|done]. by injection H as <- <-.
    + injection H as <- <-. eapply inv_store_pending; [done..| |done|done].
      destruct Hwf as (Ho & Hc & Hcap & Hb). repeat split; simpl; try done.
      intros Hcl. rewrite Hb in Hbuf; done.
  - apply bind_Ok in H as (err & _ & H).
    destruct (pendingNotifications srv !! _); [|by injection H as <- <-].
    apply bind_Ok in H as (p' & Hclose & [= <- <-]).
    eapply inv_retire_pending; [done..|]. by eapply Pending_close_wf.
Qed.

(** A producer with a live context waits as long as its entry is open. *)
Lemma Notify_wait_open pick ptr p srv :
  pending_store srv !! ptr = Some p → pending_wf p → Pending.closed p = false →
  Notify_wait None pick ptr srv = Blocked.
Proof.
  intros Hp (_ & Hc & _ & Hb) Hcl. unfold Notify_wait, deref. rewrite Hp. simpl.
  unfold chan_try_recv. rewrite Hb, Hc, Hcl by done. done.
Qed.

(** A producer with a live context takes the value waiting in the slot. *)
Lemma Notify_wait_value pick ptr p v rest srv :
  pending_store srv !! ptr = Some p → buf (Pending.responseChannel p) = v :: rest →
  Notify_wait None pick ptr srv
  = Ok (store_pending ptr
          (Pending.with_channel p
             (mkChan rest (cap (Pending.responseChannel p))
                (chan_closed (Pending.responseChannel p)))) srv,
        inl v).
Proof.
  intros Hp Hb. unfold Notify_wait, deref. rewrite Hp. simpl.
  unfold chan_try_recv. rewrite Hb. done.
Qed.

(** With a value in the slot the [select] never waits, whatever the state
    of the context; it may pick either ready case. *)
Lemma Notify_wait_ready ctx pick ptr p v rest srv :
  pending_wf p →
  pending_store srv !! ptr = Some p → buf (Pending.responseChannel p) = v :: rest →
  ∃ srv' r, Notify_wait ctx pick ptr srv = Ok (srv', r) ∧
            (r = inl v ∨ ∃ e, ctx = Some e ∧ pick = DoneCase ∧ r = inr (CtxErr e)).
Proof.
  intros Hwf Hp Hb. unfold Notify_wait, deref. rewrite Hp. simpl.
  unfold chan_try_recv. rewrite Hb. simpl.
  destruct ctx as [e|]; simpl; [destruct pick|]; simpl; eauto.
  destruct (pendingNotifications srv !! _); simpl; [|eauto 10].
  destruct (Pending.closed p) eqn:Hcl.
  - rewrite Pending_close_closed by done. simpl. eauto 10.
  - rewrite Pending_close_open by done. simpl. eauto 10.
Qed.

(** ** The responder *)

Lemma Respond_unknown req srv :
  pendingNotifications srv !! RespondRequestId req = None →
  Respond req srv = Ok (srv, inr (Status DeadlineExceeded)).
Proof. intros H. unfold Respond. by rewrite H. Qed.

Lemma Respond_spec srv requestId ptr p resp :
  pendingNotifications srv !! requestId = Some ptr →
  pending_store srv !! ptr = Some p →
  pending_wf p → RequestId (Pending.message p) = requestId →
  Respond {| RespondRequestId := requestId; Response := Some resp |} srv
  = if validateResponse resp (Request (Pending.message p))
    then Ok (set_pendingNotifications (delete requestId (pendingNotifications srv))
               (if Pending.closed p then srv
                else store_pending ptr (responded resp p) srv),
             inl RespondAck)
    else Ok (srv, inr (Status InvalidArgument)).
Proof.
  intros Hk Hp (Ho & Hc & Hcap & Hb) Hid. unfold Respond, deref. simpl.
  rewrite Hk, Hp. simpl.
  destruct (validateResponse resp _); simpl; [|done].
  destruct (Pending.closed p) eqn:Hcl; simpl; [by rewrite Hid|].
  specialize (Hb eq_refl).
  rewrite chan_send_room; simpl; [|done|rewrite Hb; simpl; lia].
  unfold Pending.close, chan_close. simpl. rewrite Ho. simpl.
  rewrite Hb, Hcap, Hid. done.
Qed.

Lemma Respond_invalid srv requestId ptr p resp :
  pendingNotifications srv !! requestId = Some ptr →
  pending_store srv !! ptr = Some p →
  validateResponse resp (Request (Pending.message p)) = false →
  Respond {| RespondRequestId := requestId; Response := Some resp |} srv
  = Ok (srv, inr (Status InvalidArgument)).
Proof.
  intros Hk Hp Hv. unfold Respond, deref. simpl. rewrite Hk, Hp. simpl.
  by rewrite Hv.
Qed.

Lemma Respond_inv req srv srv' r :
  inv srv → Respond req srv = Ok (srv', r) → inv srv'.
Proof.
  intros Hinv. destruct req as [requestId response].
  destruct (pendingNotifications srv !! requestId) as [ptr|] eqn:Hk;
    [|rewrite Respond_unknown by done; by intros [= <- <-]].
  destruct (inv_pending_table _ Hinv _ _ Hk) as (p & Hp & Hid & Hcl).
  assert (Hwf : pending_wf p).
  { eapply Forall_lookup_1; [apply (inv_pending_store _ Hinv) | done]. }
  destruct response as [resp|];
    [|unfold Respond, deref; simpl; by rewrite Hk, Hp].
  rewrite (Respond_spec srv requestId ptr p resp) by done.
  destruct (validateResponse resp _); [|by intros [= <- <-]].
  intros [= <- <-]. destruct (Pending.closed p) eqn:Hclosed.
  - by apply inv_delete_pending.
  - rewrite <- Hid.
    change (inv (store_pending ptr (responded resp p)
                   (set_pendingNotifications
                      (delete (RequestId (Pending.message p)) (pendingNotifications srv))
                      srv))).
    eapply inv_retire_pending; [done..|]. done.
Qed.

(** ** The subscriber path *)

Lemma replay_one_inv sptr key srv srv' :
  inv srv → replay_one sptr key srv = Ok srv' → inv srv'.
Proof.
  intros Hinv. unfold replay_one.
  destruct (pendingNotifications srv !! key); [|by intros [= <-]].
  intros H. apply bind_Ok in H as (p & _ & H).
  apply bind_Ok in H as (s & Hs & H). apply deref_Ok in Hs.
  destruct (Subscription.supports s _); simpl in H; [|by injection H as <-].
  apply bind_Ok in H as (c & Hsend & H).
  apply chan_send_Ok in Hsend as (Hopen & _ & ->).
  assert (Hwf : subscription_wf s).
  { eapply Forall_lookup_1; [apply (inv_subscription_store _ Hinv) | done]. }
  assert (inv (store_subscription sptr
                 (Subscription.with_channel s
                    (mkChan (buf (Subscription.channel s) ++ [Pending.message p])
                       (cap (Subscription.channel s)) false)) srv)) as Hinv1.
  { eapply inv_store_subscription; [done..| |done|done].
    destruct Hwf as [Ho Hc]. split; simpl; congruence. }
  destruct (isBlocking _); simpl in H; injection H as <-; [done|].
  by apply (inv_delete_pending _ key) in Hinv1.
Qed.

Lemma replay_loop_inv sptr order srv srv' :
  inv srv → replay_loop sptr order srv = Ok srv' → inv srv'.
Proof.
  revert srv. induction order as [|key rest IH]; simpl; intros srv Hinv.
  - by intros [= <-].
  - intros H. apply bind_Ok in H as (srv1 & H1 & H2).
    eapply IH; [|done]. by eapply replay_one_inv.
Qed.

Lemma inv_joined srv act n : inv srv → inv (joined act n srv).
Proof.
  intros [Hps Hpt Hss Hst]. split; simpl; try done.
  - apply Forall_app. split; [done|]. by apply Forall_singleton.
  - intros k q Hk. apply lookup_insert_Some in Hk as [[<- <-]|[Hne Hk]].
    + eexists. rewrite lookup_app_r, Nat.sub_diag by lia. done.
    + destruct (Hst k q Hk) as (s & Hs & Hid & Hcl). exists s.
      split; [|done]. rewrite lookup_app_l; [done|]. by eapply lookup_lt_Some.
Qed.

Lemma subscribeLocked_unfold order req srv :
  subscribeLocked order req srv
  = srv1 ← replay_loop (length (subscription_store srv)) order
             (joined (SubscribeActive req) (join_capacity srv) srv);
    Ok (srv1, length (subscription_store srv)).
Proof. reflexivity. Qed.

Lemma subscribeLocked_inv order req srv srv' sptr :
  inv srv → subscribeLocked order req srv = Ok (srv', sptr) → inv srv'.
Proof.
  intros Hinv. rewrite subscribeLocked_unfold. intros H.
  apply bind_Ok in H as (srv1 & Hloop & [= <- <-]).
  eapply replay_loop_inv; [|done]. by apply inv_joined.
Qed.

Lemma unsubscribeLocked_inv subscriptionID srv srv' :
  inv srv → unsubscribeLocked subscriptionID srv = Ok srv' → inv srv'.
Proof.
  intros Hinv. unfold unsubscribeLocked.
  destruct (subscriptions srv !! subscriptionID); [|by intros [= <-]].
  intros H. apply bind_Ok in H as (s & Hs & H). apply deref_Ok in Hs.
  apply bind_Ok in H as (s' & Hclose & [= <-]).
  assert (Hwf : subscription_wf s).
  { eapply Forall_lookup_1; [apply (inv_subscription_store _ Hinv) | done]. }
  eapply inv_unregister; [done..|]. by eapply Subscription_close_wf.
Qed.

Lemma Subscribe_turn_inv stream_done send_ok pick sptr srv srv' r :
  inv srv → Subscribe_turn stream_done send_ok pick sptr srv = Ok (srv', r) →
  inv srv'.
Proof.
  intros Hinv. unfold Subscribe_turn. intros H.
  apply bind_Ok in H as (s & Hs & H). apply deref_Ok in Hs.
  assert (Hwf : subscription_wf s).
  { eapply Forall_lookup_1; [apply (inv_subscription_store _ Hinv) | done]. }
  destruct (select2 _ _ _) as [[]|]; [| by injection H as <- <- |done].
  unfold chan_try_recv in H.
  destruct (buf (Subscription.channel s)) as [|v rest].
  - destruct (chan_closed _); [|done]. by injection H as <- <-.
  - assert (inv (store_subscription sptr
                   (Subscription.with_channel s
                      (mkChan rest (cap (Subscription.channel s))
                         (chan_closed (Subscription.channel s)))) srv)) as Hinv1.
    { eapply inv_store_subscription; [done..| |done|done]. by destruct Hwf. }
    destruct (Subscription.closed s); [by injection H as <- <-|].
    destruct send_ok; by injection H as <- <-.
Qed.

(** Every transition keeps the invariant, so every reachable state has it. *)
Lemma step_inv l srv srv' : inv srv → step l srv srv' → inv srv'.
Proof.
  intros Hinv Hstep. destruct Hstep.
  - by eapply notifySubscribers_inv.
  - by eapply Notify_wait_inv.
  - by eapply subscribeLocked_inv.
  - by eapply Subscribe_turn_inv.
  - by eapply unsubscribeLocked_inv.
  - by eapply Respond_inv.
Qed.

Lemma reachable_inv srv : reachable srv → inv srv.
Proof.
  unfold reachable. revert srv. apply (rtc_ind_r inv NewNotificationService).
  - apply inv_NewNotificationService.
  - intros srv1 srv2 _ [l Hstep] IH. by eapply step_inv.
Qed.

Lemma other_steps_inv ptr srv srv' : inv srv → rtc (other_step ptr) srv srv' → inv srv'.
Proof.
  intros Hinv Hsteps. induction Hsteps as [|srv1 srv2 srv3 [l [_ Hstep]] _ IH]; [done|].
  apply IH. by eapply step_inv.
Qed.

(** ** The replay loop *)

Lemma omap_ext_in {A B} (f g : A → option B) (l : list A) :
  (∀ x, x ∈ l → f x = g x) → omap f l = omap g l.
Proof.
  induction l as [|x l IH]; intros H; [done|]. csimpl.
  rewrite (H x) by left. rewrite IH; [done|]. intros y Hy. apply H. by right.
Qed.

Lemma replay_one_spec sptr key srv s :
  inv srv → subscription_store srv !! sptr = Some s →
  chan_closed (Subscription.channel s) = false →
  (length (buf (Subscription.channel s)) < cap (Subscription.channel s))%nat →
  replay_one sptr key srv
  = Ok (match replays (Subscription.active s) srv key with
        | Some m =>
            set_pendingNotifications
              (if drops (Subscription.active s) srv key
               then delete key (pendingNotifications srv)
               else pendingNotifications srv)
              (store_subscription sptr (enqueued m s) srv)
        | None => srv
        end).
Proof.
  intros Hinv Hs Hopen Hroom. unfold replay_one, drops, replays.
  destruct (pendingNotifications srv !! key) as [ptr|] eqn:Hk; simpl; [|done].
  destruct (inv_pending_table _ Hinv _ _ Hk) as (p & Hp & Hid & Hcl).
  unfold deref. rewrite Hp, Hs. simpl. unfold Subscription.supports.
  destruct (bool_decide _); simpl; [|done].
  rewrite chan_send_room by done. simpl.
  destruct (isBlocking _); simpl; [|done].
  by destruct srv.
Qed.

Lemma replay_loop_spec sptr order :
  ∀ srv s,
    inv srv → NoDup order → subscription_store srv !! sptr = Some s →
    chan_closed (Subscription.channel s) = false →
    (length (buf (Subscription.channel s)) + length order
     ≤ cap (Subscription.channel s))%nat →
    ∃ table',
      replay_loop sptr order srv
      = Ok (mkService (nextSubscriptionID srv) (subscriptions srv)
              (nextNotificationID srv) table'
              (<[sptr := Subscription.with_channel s
                           (mkChan (buf (Subscription.channel s)
                                      ++ omap (replays (Subscription.active s) srv) order)
                              (cap (Subscription.channel s)) false)]>
                 (subscription_store srv))
              (pending_store srv)) ∧
      ∀ k, table' !! k
           = if bool_decide (k ∈ order) && drops (Subscription.active s) srv k
             then None else pendingNotifications srv !! k.
Proof.
  induction order as [|key rest IH]; intros srv s Hinv Hnd Hs Hopen Hroom.
  { exists (pendingNotifications srv). simpl. split; [|done].
    rewrite app_nil_r. rewrite list_insert_id; [by destruct srv|].
    rewrite Hs. f_equal. destruct s as [i a [b c cl] o d ca]. simpl in *.
    by subst cl. }
  apply NoDup_cons in Hnd as [Hnotin Hnd]. simpl in Hroom. simpl.
  rewrite (replay_one_spec sptr key srv s) by (done || lia). simpl.
  destruct (replays (Subscription.active s) srv key) as [m|] eqn:Hrep.
  - set (srv1 := set_pendingNotifications _ _).
    assert (Hinv1 : inv srv1).
    { unfold srv1. destruct (drops _ srv key).
      - apply (inv_delete_pending (store_subscription sptr (enqueued m s) srv) key).
        eapply inv_store_subscription; [done..| |done|done].
        assert (Hwf : subscription_wf s).
        { eapply Forall_lookup_1; [apply (inv_subscription_store _ Hinv) | done]. }
        destruct Hwf as [Ho Hc]. split; simpl; congruence.
      - replace (set_pendingNotifications (pendingNotifications srv)
                   (store_subscription sptr (enqueued m s) srv))
          with (store_subscription sptr (enqueued m s) srv) by (by destruct srv).
        eapply inv_store_subscription; [done..| |done|done].
        assert (Hwf : subscription_wf s).
        { eapply Forall_lookup_1; [apply (inv_subscription_store _ Hinv) | done]. }
        destruct Hwf as [Ho Hc]. split; simpl; congruence. }
    assert (Hs1 : subscription_store srv1 !! sptr = Some (enqueued m s)).
    { unfold srv1. simpl. apply list_lookup_insert_eq. by eapply lookup_lt_Some. }
    assert (Hne : ∀ k, k ≠ key →
              pendingNotifications srv1 !! k = pendingNotifications srv !! k).
    { intros k Hk. unfold srv1. simpl. destruct (drops _ srv key); [|done].
      by rewrite lookup_delete_ne. }
    assert (Hrep1 : ∀ k, k ≠ key →
              replays (Subscription.active s) srv1 k
              = replays (Subscription.active s) srv k).
    { intros k Hk. unfold replays. rewrite Hne by done. done. }
    destruct (IH srv1 (enqueued m s) Hinv1 Hnd Hs1 eq_refl) as (table' & Hrun & Htab).
    { simpl. rewrite length_app. simpl. lia. }
    exists table'. split.
    + rewrite Hrun. unfold srv1. simpl. rewrite list_insert_insert_eq.
      rewrite <- app_assoc. simpl.
      rewrite (omap_ext_in (replays (Subscription.active s) srv1)
                 (replays (Subscription.active s) srv)); [done|].
      intros k Hk. apply Hrep1. intros ->. done.
    + intros k. rewrite Htab. simpl. destruct (decide (k = key)) as [->|Hk].
      * rewrite (bool_decide_eq_false_2 (key ∈ rest)) by done.
        rewrite (bool_decide_eq_true_2 (key ∈ key :: rest)) by left. simpl.
        unfold srv1. simpl. destruct (drops _ srv key); [|done].
        apply lookup_delete_eq.
      * rewrite Hne by done. unfold drops. rewrite Hrep1 by done.
        rewrite (bool_decide_ext (k ∈ key :: rest) (k ∈ rest)); [done|].
        rewrite elem_of_cons. split; [by intros [?|?] | by right].
  - destruct (IH srv s Hinv Hnd Hs Hopen) as (table' & Hrun & Htab); [lia|].
    exists table'. split; [done|]. intros k. rewrite Htab.
    destruct (decide (k = key)) as [->|Hk].
    + rewrite (bool_decide_eq_false_2 (key ∈ rest)) by done.
      unfold drops. rewrite Hrep. by rewrite !andb_false_r.
    + rewrite (bool_decide_ext (k ∈ key :: rest) (k ∈ rest)); [done|].
      rewrite elem_of_cons. split; [by intros [?|?] | by right].
Qed.

Lemma join_capacity_ge srv : (size (pendingNotifications srv) ≤ join_capacity srv)%nat.
Proof.
  unfold join_capacity, SubscriberMaxPendingNotifications.
  destruct (Nat.ltb_spec (size (pendingNotifications srv)) 100); lia.
Qed.

Lemma join_capacity_floor srv :
  (SubscriberMaxPendingNotifications ≤ join_capacity srv)%nat.
Proof.
  unfold join_capacity, SubscriberMaxPendingNotifications.
  destruct (Nat.ltb_spec (size (pendingNotifications srv)) 100); lia.
Qed.

Lemma drops_not_pending act srv k :
  pendingNotifications srv !! k = None → drops act srv k = false.
Proof. intros H. unfold drops, replays. by rewrite H. Qed.

(** [subscribeLocked] never waits on its own queue: the queue is sized for
    the whole table.  It registers the joiner under the next id at a new
    address, with the eligible envelopes in its queue in iteration order,
    and removes from the table what the replay [drops]. *)
Lemma subscribeLocked_spec order req srv :
  inv srv → ranges_over order (pendingNotifications srv) →
  ∃ table',
    subscribeLocked order req srv
    = Ok (mkService (uint64_incr (nextSubscriptionID srv))
            (<[nextSubscriptionID srv := length (subscription_store srv)]>
               (subscriptions srv))
            (nextNotificationID srv) table'
            (subscription_store srv
               ++ [Subscription.mk (nextSubscriptionID srv) (SubscribeActive req)
                     (mkChan (omap (replays (SubscribeActive req) srv) order)
                        (join_capacity srv) false)
                     false false false])
            (pending_store srv),
          length (subscription_store srv)) ∧
    ∀ k, table' !! k
         = if drops (SubscribeActive req) srv k then None
           else pendingNotifications srv !! k.
Proof.
  intros Hinv Hord. rewrite subscribeLocked_unfold.
  pose proof (ranges_over_NoDup _ _ Hord) as Hnd.
  pose proof (ranges_over_length _ _ Hord) as Hlen.
  pose proof (join_capacity_ge srv) as Hcap.
  destruct (replay_loop_spec (length (subscription_store srv)) order
              (joined (SubscribeActive req) (join_capacity srv) srv)
              (Subscription.mk (nextSubscriptionID srv) (SubscribeActive req)
                 (make_chan (join_capacity srv)) false false false))
    as (table' & Hrun & Htab).
  - by apply inv_joined.
  - done.
  - simpl. by rewrite lookup_app_r, Nat.sub_diag by lia.
  - done.
  - simpl. lia.
  - exists table'. rewrite Hrun. simpl. rewrite insert_at_end. split; [done|].
    intros k. rewrite Htab. simpl.
    change (drops (SubscribeActive req)
              (joined (SubscribeActive req) (join_capacity srv) srv) k)
      with (drops (SubscribeActive req) srv k).
    destruct (pendingNotifications srv !! k) as [ptr|] eqn:Hk.
    + rewrite (bool_decide_eq_true_2 (k ∈ order)); [done|].
      apply (ranges_over_elem_of _ _ _ Hord). by rewrite Hk.
    + rewrite drops_not_pending by done. by rewrite andb_false_r.
Qed.

(** ** The checker is sound *)

Lemma pending_wfb_sound p : pending_wfb p = true → pending_wf p.
Proof.
  unfold pending_wfb, pending_wf. rewrite !andb_true_iff, orb_true_iff.
  rewrite !bool_decide_eq_true. intros [[[Ho Hc] Hcap] Hb].
  repeat split; try done. intros Hcl. destruct Hb as [Hb|Hb]; [congruence|].
  by apply nil_length_inv.
Qed.

Lemma subscription_wfb_sound s : subscription_wfb s = true → subscription_wf s.
Proof.
  unfold subscription_wfb, subscription_wf. rewrite andb_true_iff.
  by rewrite !bool_decide_eq_true.
Qed.

Lemma forallb_Forall {A} (f : A → bool) (P : A → Prop) (l : list A) :
  (∀ x, f x = true → P x) → forallb f l = true → Forall P l.
Proof.
  intros HfP. induction l as [|x l IH]; simpl; [constructor|].
  rewrite andb_true_iff. intros [Hx Hl]. constructor; auto.
Qed.

Lemma invb_sound srv : invb srv = true → inv srv.
Proof.
  unfold invb. rewrite !andb_true_iff. intros [[[Hps Hpt] Hss] Hst]. split.
  - by apply (forallb_Forall _ _ _ pending_wfb_sound).
  - intros k q Hk. apply elem_of_map_to_list in Hk.
    eapply (forallb_Forall _ (λ e, pending_entryb srv e = true)) in Hpt; [|done].
    rewrite Forall_forall in Hpt. specialize (Hpt _ Hk).
    unfold pending_entryb in Hpt. simpl in Hpt.
    destruct (pending_store srv !! q) as [p|]; [|done].
    apply andb_true_iff in Hpt as [Hid Hcl].
    apply bool_decide_eq_true in Hid, Hcl. eauto.
  - by apply (forallb_Forall _ _ _ subscription_wfb_sound).
  - intros k q Hk. apply elem_of_map_to_list in Hk.
    eapply (forallb_Forall _ (λ e, subscription_entryb srv e = true)) in Hst; [|done].
    rewrite Forall_forall in Hst. specialize (Hst _ Hk).
    unfold subscription_entryb in Hst. simpl in Hst.
    destruct (subscription_store srv !! q) as [s|]; [|done].
    apply andb_true_iff in Hst as [Hid Hcl].
    apply bool_decide_eq_true in Hid. apply negb_true_iff in Hcl. eauto.
Qed.

(** ** The concrete services are states of the broker *)

Example srv_confirm_run :
  notifySubscribers [] req_confirm NewNotificationService = Ok (srv_confirm, 0%nat).
Proof. reflexivity. Qed.

Example srv_info_run :
  notifySubscribers [] (req_info true) NewNotificationService = Ok (srv_info, 0%nat).
Proof. reflexivity. Qed.

Example srv_full_table_run :
  dispatch_n 120 [] req_confirm NewNotificationService = Ok srv_full_table.
Proof. vm_compute. reflexivity. Qed.

Example srv_full_queue_run :
  ('(srv, _) ← subscribeLocked [] {| SubscribeActive := true |} NewNotificationService;
   dispatch_n 100 [0] (req_info true) srv)
  = Ok srv_full_queue.
Proof. vm_compute. reflexivity. Qed.

Lemma inv_srv_confirm : inv srv_confirm.
Proof. apply invb_sound. vm_compute. reflexivity. Qed.

Lemma inv_srv_info : inv srv_info.
Proof. apply invb_sound. vm_compute. reflexivity. Qed.

Lemma inv_srv_full_queue : inv srv_full_queue.
Proof. apply invb_sound. vm_compute. reflexivity. Qed.

Lemma ranges_over_nil {V} : ranges_over (V:=V) [] ∅.
Proof. unfold ranges_over. by rewrite map_to_list_empty. Qed.

Lemma ranges_over_singleton {V} k (v : V) : ranges_over [k] {[ k := v ]}.
Proof. unfold ranges_over. by rewrite map_to_list_singleton. Qed.

(** * The claims *)

(** C1. [Respond]'s validation accepts a response exactly when its command
    is populated with a non-empty [cmd], or no command is populated and the
    action is empty (the user cancelled), or no command is populated and the
    action is one of the request's actions; for a pending request, [Respond]
    returns [InvalidArgument] exactly in every other case. *)
Theorem Respond_validation :
  (∀ resp req,
     validateResponse resp req = true ↔
       (∃ command, Command resp = Some command ∧ Cmd command ≠ "") ∨
       (Command resp = None ∧ Action resp = "") ∨
       (Command resp = None ∧ Action resp ∈ Actions req)) ∧
  (∀ srv requestId ptr p resp,
     pendingNotifications srv !! requestId = Some ptr →
     pending_store srv !! ptr = Some p →
     Respond {| RespondRequestId := requestId; Response := Some resp |} srv
     = Ok (srv, inr (Status InvalidArgument)) ↔
       ¬ ((∃ command, Command resp = Some command ∧ Cmd command ≠ "") ∨
          (Command resp = None ∧ Action resp = "") ∨
          (Command resp = None ∧ Action resp ∈ Actions (Request (Pending.message p))))).
Proof.
  split; [apply validateResponse_true|].
  intros srv requestId ptr p resp Hk Hp.
  rewrite <- validateResponse_true, not_true_iff_false. split.
  - unfold Respond, deref. simpl. rewrite Hk, Hp. simpl.
    destruct (validateResponse resp _); [|done]. simpl.
    intros H. apply bind_Ok in H as (srv1 & _ & H). discriminate.
  - exact (Respond_invalid srv requestId ptr p resp Hk Hp).
Qed.

Lemma Respond_validation_witness :
  Respond {| RespondRequestId := 0; Response := Some resp_maybe |} srv_confirm
  = Ok (srv_confirm, inr (Status InvalidArgument)).
Proof.
  apply (proj2 Respond_validation srv_confirm 0 0%nat (fresh_pending 0 req_confirm));
    [reflexivity | reflexivity |].
  vm_compute. intros [(c & Hc & _)|[[_ Ha]|[_ Ha]]]; [discriminate Hc|discriminate Ha|].
  apply list_elem_of_In in Ha. simpl in Ha.
  destruct Ha as [Ha|[Ha|[]]]; discriminate Ha.
Defined.

(** C5. With at least 120 entries in the pending table at entry, [Notify]
    returns [ResourceExhausted] and leaves the service as it was: no id is
    consumed, nothing is enqueued, no pending entry is created. *)
Theorem Notify_ResourceExhausted ctx pick order req srv :
  (NotifierMaxPendingNotifications ≤ size (pendingNotifications srv))%nat →
  Notify ctx pick order req srv = Ok (srv, inr (Status ResourceExhausted)).
Proof.
  intros Hfull. unfold Notify.
  destruct (Nat.leb_spec NotifierMaxPendingNotifications
              (size (pendingNotifications srv))); [done | lia].
Qed.

Lemma Notify_ResourceExhausted_witness :
  (NotifierMaxPendingNotifications ≤ size (pendingNotifications srv_full_table))%nat ∧
  Notify None RecvCase [] (req_info true) srv_full_table
  = Ok (srv_full_table, inr (Status ResourceExhausted)).
Proof.
  assert (H : (NotifierMaxPendingNotifications
               ≤ size (pendingNotifications srv_full_table))%nat).
  { vm_compute. reflexivity. }
  split; [exact H|]. apply (Notify_ResourceExhausted _ _ _ _ _ H).
Defined.

(** C7. A [Respond] whose request id is not in the pending table returns
    [DeadlineExceeded] and leaves the service as it was. *)
Theorem Respond_DeadlineExceeded req srv :
  pendingNotifications srv !! RespondRequestId req = None →
  Respond req srv = Ok (srv, inr (Status DeadlineExceeded)).
Proof. apply Respond_unknown. Qed.

Lemma Respond_DeadlineExceeded_witness :
  Respond {| RespondRequestId := 7; Response := Some resp_yes |} srv_confirm
  = Ok (srv_confirm, inr (Status DeadlineExceeded)).
Proof. apply Respond_DeadlineExceeded. reflexivity. Defined.

(** What the invariant says of a table entry whose request is blocking. *)
Lemma inv_blocking_entry srv requestId ptr p :
  inv srv → pendingNotifications srv !! requestId = Some ptr →
  pending_store srv !! ptr = Some p →
  pending_wf p ∧ RequestId (Pending.message p) = requestId ∧
  Pending.closed p = negb (isBlocking (Request (Pending.message p))).
Proof.
  intros Hinv Hk Hp.
  destruct (inv_pending_table _ Hinv _ _ Hk) as (p' & Hp' & Hid & Hcl).
  assert (p' = p) as -> by congruence. split; [|done].
  eapply Forall_lookup_1; [apply (inv_pending_store _ Hinv) | done].
Qed.

Lemma open_channel p :
  pending_wf p → Pending.closed p = false →
  Pending.responseChannel p = mkChan [] 1 false.
Proof.
  intros (_ & Hc & Hcap & Hb) Hcl. specialize (Hb Hcl). rewrite Hcl in Hc.
  destruct (Pending.responseChannel p) as [b c cl]. simpl in *. congruence.
Qed.

(** C6. For a pending blocking request, a [Respond] whose payload fails
    validation returns [InvalidArgument] and leaves the service as it was:
    the entry is still in the table, its response channel is still empty
    and open, the producer still waits, and a later [Respond] for the same
    id with a valid payload is acknowledged and hands that payload to the
    producer. *)
Theorem Respond_invalid_payload srv requestId ptr p resp :
  inv srv →
  pendingNotifications srv !! requestId = Some ptr →
  pending_store srv !! ptr = Some p →
  isBlocking (Request (Pending.message p)) = true →
  validateResponse resp (Request (Pending.message p)) = false →
  Respond {| RespondRequestId := requestId; Response := Some resp |} srv
  = Ok (srv, inr (Status InvalidArgument)) ∧
  Pending.responseChannel p = mkChan [] 1 false ∧
  Pending.closed p = false ∧
  (∀ pick, Notify_wait None pick ptr srv = Blocked) ∧
  (∀ resp',
     validateResponse resp' (Request (Pending.message p)) = true →
     ∃ srv',
       Respond {| RespondRequestId := requestId; Response := Some resp' |} srv
       = Ok (srv', inl RespondAck) ∧
       pendingNotifications srv' !! requestId = None ∧
       ∀ pick, ∃ srv'', Notify_wait None pick ptr srv' = Ok (srv'', inl resp')).
Proof.
  intros Hinv Hk Hp Hblocking Hinvalid.
  destruct (inv_blocking_entry _ _ _ _ Hinv Hk Hp) as (Hwf & Hid & Hcl).
  rewrite Hblocking in Hcl. simpl in Hcl.
  split; [by eapply Respond_invalid|].
  split; [by apply open_channel|]. split; [done|].
  split; [intros pick; by eapply Notify_wait_open|].
  intros resp' Hvalid.
  rewrite (Respond_spec srv requestId ptr p resp') by done.
  rewrite Hvalid, Hcl. eexists. split; [done|]. simpl.
  split; [apply lookup_delete_eq|]. intros pick. eexists.
  rewrite (Notify_wait_value pick ptr (responded resp' p) resp' []); [done| |done].
  simpl. apply list_lookup_insert_eq. by eapply lookup_lt_Some.
Qed.

Lemma Respond_invalid_payload_witness :
  Respond {| RespondRequestId := 0; Response := Some resp_maybe |} srv_confirm
  = Ok (srv_confirm, inr (Status InvalidArgument)) ∧
  ∃ srv',
    Respond {| RespondRequestId := 0; Response := Some resp_yes |} srv_confirm
    = Ok (srv', inl RespondAck) ∧
    ∃ srv'', Notify_wait None RecvCase 0%nat srv' = Ok (srv'', inl resp_yes).
Proof.
  destruct (Respond_invalid_payload srv_confirm 0 0%nat
              (fresh_pending 0 req_confirm) resp_maybe)
    as (Hinvalid & _ & _ & _ & Hlater);
    [apply inv_srv_confirm | reflexivity | reflexivity | reflexivity | reflexivity |].
  split; [exact Hinvalid|].
  destruct (Hlater resp_yes eq_refl) as (srv' & Hack & _ & Hwait).
  exists srv'. split; [exact Hack|]. exact (Hwait RecvCase).
Defined.

(** C10. For a non-blocking entry still in the table (closed when it was
    created, its producer already served), a [Respond] for its id with a
    valid payload is acknowledged and removes the entry from the table; it
    sends nothing: the stored entries, and so the entry's response channel,
    are as before. *)
Theorem Respond_nonblocking_entry srv requestId ptr p resp :
  inv srv →
  pendingNotifications srv !! requestId = Some ptr →
  pending_store srv !! ptr = Some p →
  isBlocking (Request (Pending.message p)) = false →
  validateResponse resp (Request (Pending.message p)) = true →
  ∃ srv',
    Respond {| RespondRequestId := requestId; Response := Some resp |} srv
    = Ok (srv', inl RespondAck) ∧
    pendingNotifications srv' = delete requestId (pendingNotifications srv) ∧
    pendingNotifications srv' !! requestId = None ∧
    pending_store srv' = pending_store srv ∧
    pending_store srv' !! ptr = Some p ∧
    Pending.closed p = true.
Proof.
  intros Hinv Hk Hp Hnonblocking Hvalid.
  destruct (inv_blocking_entry _ _ _ _ Hinv Hk Hp) as (Hwf & Hid & Hcl).
  rewrite Hnonblocking in Hcl. simpl in Hcl.
  rewrite (Respond_spec srv requestId ptr p resp) by done.
  rewrite Hvalid, Hcl. eexists. split; [done|]. simpl.
  split; [done|]. split; [apply lookup_delete_eq|]. done.
Qed.

Lemma Respond_nonblocking_entry_witness :
  ∃ srv',
    Respond {| RespondRequestId := 0; Response := Some emptyNotifyResponse |} srv_info
    = Ok (srv', inl RespondAck) ∧
    pending_store srv' = pending_store srv_info.
Proof.
  destruct (Respond_nonblocking_entry srv_info 0 0%nat
              (fresh_pending 0 (req_info true)) emptyNotifyResponse)
    as (srv' & Hack & _ & _ & Hstore & _);
    [apply inv_srv_info | reflexivity | reflexivity | reflexivity | reflexivity |].
  exists srv'. split; [exact Hack | exact Hstore].
Defined.

(** ** Classification and fan-out *)

Lemma isBlocking_true req :
  isBlocking req = true ↔ Actions req ≠ [] ∨ Open req ≠ None ∨ Preview req ≠ None.
Proof.
  unfold isBlocking. rewrite !orb_true_iff, !bool_decide_eq_true.
  assert ((0 <? length (Actions req))%nat = true ↔ Actions req ≠ []) as ->.
  { destruct (Actions req); simpl; split; try done. }
  tauto.
Qed.

(** C2. A request is blocking exactly when its action list is non-empty or
    [Open] is set or [Preview] is set; the entry the dispatcher files for it
    holds a pre-loaded empty response, and is closed, exactly when the
    request is not blocking. *)
Theorem isBlocking_classification order req srv :
  inv srv → ranges_over order (subscriptions srv) →
  (isBlocking req = true ↔
     Actions req ≠ [] ∨ Open req ≠ None ∨ Preview req ≠ None) ∧
  ∃ srv' ptr p,
    notifySubscribers order req srv = Ok (srv', ptr) ∧
    pendingNotifications srv' !! nextNotificationID srv = Some ptr ∧
    pending_store srv' !! ptr = Some p ∧
    Pending.message p = {| RequestId := nextNotificationID srv; Request := req |} ∧
    (isBlocking req = false ↔
       buf (Pending.responseChannel p) = [emptyNotifyResponse]) ∧
    (isBlocking req = false →
       Pending.responseChannel p = mkChan [emptyNotifyResponse] 1 true ∧
       Pending.closed p = true) ∧
    (isBlocking req = true →
       Pending.responseChannel p = mkChan [] 1 false ∧
       Pending.closed p = false).
Proof.
  intros Hinv Hord. split; [apply isBlocking_true|].
  destruct (notifySubscribers_spec order req srv Hinv (ranges_over_NoDup _ _ Hord))
    as (regs & sstore & Hrun & _).
  eexists _, _, (fresh_pending (nextNotificationID srv) req).
  split; [exact Hrun|]. simpl.
  split; [apply lookup_insert_eq|].
  split; [by rewrite lookup_app_r, Nat.sub_diag by lia|].
  split; [apply fresh_pending_message|].
  unfold fresh_pending. destruct (isBlocking req); simpl; repeat split; done.
Qed.

Lemma isBlocking_classification_witness :
  isBlocking req_confirm = true ∧ isBlocking (req_info true) = false ∧
  ∃ srv' ptr p,
    notifySubscribers [] (req_info true) NewNotificationService = Ok (srv', ptr) ∧
    pending_store srv' !! ptr = Some p ∧
    Pending.responseChannel p = mkChan [emptyNotifyResponse] 1 true.
Proof.
  split; [reflexivity|]. split; [reflexivity|].
  destruct (isBlocking_classification [] (req_info true) NewNotificationService)
    as (_ & srv' & ptr & p & Hrun & _ & Hp & _ & _ & Hpre & _);
    [apply inv_NewNotificationService | apply ranges_over_nil |].
  exists srv', ptr, p. split; [exact Hrun|]. split; [exact Hp|].
  exact (proj1 (Hpre eq_refl)).
Defined.

Lemma inv_without_subscribers srv : inv srv → inv (without_subscribers srv).
Proof.
  intros [Hps Hpt Hss Hst]. split; simpl; done.
Qed.

(** What the producer's wait returns depends on the pending entries only. *)
Lemma Notify_wait_frame ctx pick ptr srv1 srv2 :
  pending_store srv1 = pending_store srv2 →
  pendingNotifications srv1 = pendingNotifications srv2 →
  result_of (Notify_wait ctx pick ptr srv1) = result_of (Notify_wait ctx pick ptr srv2).
Proof.
  intros Hs Ht. unfold Notify_wait, deref. rewrite Hs, Ht.
  destruct (pending_store srv2 !! ptr) as [p|]; simpl; [|done].
  destruct (select2 _ _ _) as [[]|]; [| |done].
  - by destruct (chan_try_recv _).
  - destruct ctx as [e|]; simpl; [|done].
    destruct (pendingNotifications srv2 !! _); simpl; [|done].
    by destruct (Pending.close p).
Qed.

(** C8. In the fan-out of a request, every eligible subscription whose
    queue is full leaves the registry and is closed, with its queue as it
    was: the envelope is not delivered to it.  Every other eligible
    subscription stays registered with the envelope at the end of its
    queue, and the ineligible ones are untouched.  The dispatcher still
    files the producer's entry, and the producer's [Notify] returns what it
    would return with nobody subscribed. *)
Theorem notifySubscribers_evicts ctx pick order req srv :
  inv srv → ranges_over order (subscriptions srv) →
  ∃ srv' ptr,
    notifySubscribers order req srv = Ok (srv', ptr) ∧
    (∀ k q s,
       subscriptions srv !! k = Some q → subscription_store srv !! q = Some s →
       Subscription.active s = Active req → queue_full s = true →
       subscriptions srv' !! k = None ∧
       subscription_store srv' !! q = Some (evicted s)) ∧
    (∀ k q s,
       subscriptions srv !! k = Some q → subscription_store srv !! q = Some s →
       Subscription.active s = Active req → queue_full s = false →
       subscriptions srv' !! k = Some q ∧
       subscription_store srv' !! q
       = Some (enqueued {| RequestId := nextNotificationID srv; Request := req |} s)) ∧
    (∀ k q s,
       subscriptions srv !! k = Some q → subscription_store srv !! q = Some s →
       Subscription.active s ≠ Active req →
       subscriptions srv' !! k = Some q ∧ subscription_store srv' !! q = Some s) ∧
    pendingNotifications srv' !! nextNotificationID srv = Some ptr ∧
    pending_store srv' !! ptr = Some (fresh_pending (nextNotificationID srv) req) ∧
    result_of (Notify ctx pick order req srv)
    = result_of (Notify ctx pick [] req (without_subscribers srv)).
Proof.
  intros Hinv Hord.
  destruct (notifySubscribers_spec order req srv Hinv (ranges_over_NoDup _ _ Hord))
    as (regs & sstore & Hrun & _ & _ & _ & Hfan).
  assert (Hvisit : ∀ k q s,
            subscriptions srv !! k = Some q → subscription_store srv !! q = Some s →
            regs !! k
            = (if evicts {| RequestId := nextNotificationID srv; Request := req |} s
               then None else Some q) ∧
            sstore !! q
            = Some (fanned {| RequestId := nextNotificationID srv; Request := req |} s)).
  { intros k q s Hk Hq. apply Hfan; [|done|done].
    apply (ranges_over_elem_of _ _ _ Hord). by rewrite Hk. }
  eexists _, _. split; [exact Hrun|]. simpl.
  split; [|split; [|split; [|split; [|split]]]].
  - intros k q s Hk Hq Hact Hfull. destruct (Hvisit k q s Hk Hq) as [Hr Hs].
    unfold evicts, fanned, Subscription.supports in *. simpl in *.
    rewrite bool_decide_eq_true_2 in Hr, Hs by done. rewrite Hfull in Hr, Hs. done.
  - intros k q s Hk Hq Hact Hroom. destruct (Hvisit k q s Hk Hq) as [Hr Hs].
    unfold evicts, fanned, Subscription.supports in *. simpl in *.
    rewrite bool_decide_eq_true_2 in Hr, Hs by done. rewrite Hroom in Hr, Hs. done.
  - intros k q s Hk Hq Hact. destruct (Hvisit k q s Hk Hq) as [Hr Hs].
    unfold evicts, fanned, Subscription.supports in *. simpl in *.
    rewrite bool_decide_eq_false_2 in Hr, Hs by done. done.
  - apply lookup_insert_eq.
  - by rewrite lookup_app_r, Nat.sub_diag by lia.
  - unfold Notify.
    change (pendingNotifications (without_subscribers srv))
      with (pendingNotifications srv).
    destruct (NotifierMaxPendingNotifications <=? size (pendingNotifications srv))%nat;
      [done|].
    destruct (notifySubscribers_spec [] req (without_subscribers srv)
                (inv_without_subscribers _ Hinv) (NoDup_nil_2))
      as (regs0 & sstore0 & Hrun0 & _).
    rewrite Hrun, Hrun0. simpl. by apply Notify_wait_frame.
Qed.

Lemma notifySubscribers_evicts_witness :
  ∃ srv' ptr,
    notifySubscribers [0] (req_info true) srv_full_queue = Ok (srv', ptr) ∧
    subscriptions srv' !! 0 = None ∧
    subscription_store srv' !! 0%nat = Some (evicted sub_full) ∧
    result_of (Notify None RecvCase [0] (req_info true) srv_full_queue)
    = result_of (Notify None RecvCase [] (req_info true)
                   (without_subscribers srv_full_queue)).
Proof.
  destruct (notifySubscribers_evicts None RecvCase [0] (req_info true) srv_full_queue)
    as (srv' & ptr & Hrun & Hevict & _ & _ & _ & _ & Hsame);
    [apply inv_srv_full_queue | apply ranges_over_singleton |].
  exists srv', ptr. split; [exact Hrun|].
  destruct (Hevict 0 0%nat sub_full) as [Hgone Hclosed];
    [reflexivity | reflexivity | reflexivity | reflexivity |].
  split; [exact Hgone|]. split; [exact Hclosed | exact Hsame].
Defined.

(** ** A served entry is left alone *)

Lemma Notify_wait_other ctx pick ptr' ptr srv srv' r p :
  ptr' ≠ ptr → Notify_wait ctx pick ptr' srv = Ok (srv', r) →
  pending_store srv !! ptr = Some p → pending_store srv' !! ptr = Some p.
Proof.
  intros Hne H Hp. unfold Notify_wait in H.
  apply bind_Ok in H as (p' & _ & H).
  destruct (select2 _ _ _) as [[]|]; [| |done].
  - destruct (chan_try_recv _); [|by injection H as <- <-|done].
    injection H as <- <-. simpl. by rewrite list_lookup_insert_ne.
  - apply bind_Ok in H as (err & _ & H).
    destruct (pendingNotifications srv !! _); [|by injection H as <- <-].
    apply bind_Ok in H as (p'' & _ & [= <- <-]). simpl.
    by rewrite list_lookup_insert_ne.
Qed.

Lemma Subscribe_turn_pending stream_done send_ok pick sptr srv srv' r :
  Subscribe_turn stream_done send_ok pick sptr srv = Ok (srv', r) →
  pending_store srv' = pending_store srv.
Proof.
  unfold Subscribe_turn. intros H. apply bind_Ok in H as (s & _ & H).
  destruct (select2 _ _ _) as [[]|]; [|by injection H as <- <-|done].
  destruct (chan_try_recv _); [|by injection H as <- <-|done].
  destruct (Subscription.closed s); [by injection H as <- <-|].
  destruct send_ok; by injection H as <- <-.
Qed.

Lemma unsubscribeLocked_pending subscriptionID srv srv' :
  unsubscribeLocked subscriptionID srv = Ok srv' →
  pending_store srv' = pending_store srv.
Proof.
  unfold unsubscribeLocked.
  destruct (subscriptions srv !! subscriptionID); [|by intros [= <-]].
  intros H. apply bind_Ok in H as (s & _ & H).
  by apply bind_Ok in H as (s' & _ & [= <-]).
Qed.

(** [Respond] writes to an entry only to hand an open one its response. *)
Lemma Respond_entry req srv srv' r ptr p :
  inv srv → Respond req srv = Ok (srv', r) →
  pending_store srv !! ptr = Some p →
  pending_store srv' !! ptr = Some p ∨
  (Pending.closed p = false ∧
   ∃ resp, pending_store srv' !! ptr = Some (responded resp p)).
Proof.
  intros Hinv H Hp. destruct req as [requestId response].
  destruct (pendingNotifications srv !! requestId) as [ptr'|] eqn:Hk;
    [|rewrite Respond_unknown in H by done; injection H as <- <-; by left].
  destruct (inv_pending_table _ Hinv _ _ Hk) as (p' & Hp' & Hid & _).
  assert (Hwf : pending_wf p').
  { eapply Forall_lookup_1; [apply (inv_pending_store _ Hinv) | done]. }
  destruct response as [resp|];
    [|unfold Respond, deref in H; simpl in H; by rewrite Hk, Hp' in H].
  rewrite (Respond_spec srv requestId ptr' p' resp) in H by done.
  destruct (validateResponse resp _); [|injection H as <- <-; by left].
  injection H as <- <-. destruct (Pending.closed p') eqn:Hcl'; simpl; [by left|].
  destruct (decide (ptr' = ptr)) as [->|Hne].
  - assert (p' = p) as -> by congruence. right. split; [done|]. exists resp.
    apply list_lookup_insert_eq. by eapply lookup_lt_Some.
  - left. by rewrite list_lookup_insert_ne.
Qed.

(** No transition of another goroutine touches the entry behind [ptr],
    except a [Respond] that hands it its response. *)
Lemma entry_step l ptr p srv srv' :
  inv srv → step l srv srv' → l ≠ L_Notify_wait ptr →
  pending_store srv !! ptr = Some p →
  pending_store srv' !! ptr = Some p ∨
  (Pending.closed p = false ∧
   ∃ resp, pending_store srv' !! ptr = Some (responded resp p)).
Proof.
  intros Hinv Hstep Hl Hp.
  destruct Hstep as [order req srv srv' ptr0 Hord H|ctx pick ptr' srv srv' r H
                    |order req srv srv' sptr Hord H
                    |stream_done send_ok pick sptr srv srv' r H
                    |subscriptionID srv srv' H|req srv srv' r H].
  - left.
    destruct (notifySubscribers_spec order req srv Hinv (ranges_over_NoDup _ _ Hord))
      as (regs & sstore & Hrun & _).
    rewrite Hrun in H. injection H as <- <-. simpl.
    rewrite lookup_app_l; [done|]. by eapply lookup_lt_Some.
  - left. eapply Notify_wait_other; [|done..]. intros ->. done.
  - left.
    destruct (subscribeLocked_spec order req srv Hinv Hord) as (table' & Hrun & _).
    rewrite Hrun in H. injection H as <- <-. done.
  - left. by rewrite (Subscribe_turn_pending _ _ _ _ _ _ _ H).
  - left. by rewrite (unsubscribeLocked_pending _ _ _ H).
  - by eapply Respond_entry.
Qed.

Lemma served_stable ptr p srv srv' :
  inv srv → rtc (other_step ptr) srv srv' →
  pending_store srv !! ptr = Some p → Pending.closed p = true →
  pending_store srv' !! ptr = Some p.
Proof.
  intros Hinv Hsteps Hp Hcl.
  induction Hsteps as [|srv1 srv2 srv3 [l [Hl Hstep]] _ IH]; [done|].
  apply IH; [by eapply step_inv|].
  destruct (entry_step l ptr p srv1 srv2 Hinv Hstep Hl Hp) as [H|[H _]];
    [done | congruence].
Qed.

(** ** An awaited entry never shows its producer a closed, empty channel *)

Lemma awaited_responded resp p : pending_wf p → awaited (responded resp p).
Proof. intros _. split; [by repeat split|]. done. Qed.

Lemma awaited_fresh_pending requestID req : awaited (fresh_pending requestID req).
Proof.
  split; [apply fresh_pending_wf|]. unfold fresh_pending.
  by destruct (isBlocking req).
Qed.

Lemma awaited_stable ptr p srv srv' :
  inv srv → rtc (other_step ptr) srv srv' →
  pending_store srv !! ptr = Some p → awaited p →
  ∃ p', pending_store srv' !! ptr = Some p' ∧ awaited p'.
Proof.
  intros Hinv Hsteps. revert p.
  induction Hsteps as [|srv1 srv2 srv3 [l [Hl Hstep]] _ IH]; intros p Hp Haw;
    [by eauto|].
  assert (Hinv2 : inv srv2) by (by eapply step_inv).
  destruct (entry_step l ptr p srv1 srv2 Hinv Hstep Hl Hp) as [H|[_ [resp H]]].
  - by eapply IH.
  - eapply IH; [done..|]. apply awaited_responded. by destruct Haw.
Qed.

(** The producer of an awaited entry waits, or gets a response, or gets the
    error of its own context. *)
Lemma awaited_wait ctx pick ptr p srv :
  pending_store srv !! ptr = Some p → awaited p →
  (Notify_wait ctx pick ptr srv = Blocked ∧ ctx = None) ∨
  ∃ srv' r,
    Notify_wait ctx pick ptr srv = Ok (srv', r) ∧
    ((∃ resp, r = inl resp) ∨ ∃ e, ctx = Some e ∧ r = inr (CtxErr e)).
Proof.
  intros Hp [Hwf Hfull]. destruct (Pending.closed p) eqn:Hcl.
  - right. specialize (Hfull eq_refl).
    destruct (buf (Pending.responseChannel p)) as [|v rest] eqn:Hbuf; [done|].
    destruct (Notify_wait_ready ctx pick ptr p v rest srv Hwf Hp Hbuf)
      as (srv' & r & Hrun & [->|(e & -> & _ & ->)]); eauto 10.
  - destruct ctx as [e|].
    + right. unfold Notify_wait, deref. rewrite Hp. simpl.
      rewrite (open_channel p) by done. simpl.
      destruct (pendingNotifications srv !! _); simpl; [|eauto 10].
      rewrite Pending_close_open by done. simpl. eauto 10.
    + left. split; [|done]. by eapply Notify_wait_open.
Qed.

(** ** Non-blocking requests *)

(** C3, as stated, fails on the code.  With 100 entries pending, the
    subscriber of [srv_full_queue] is eligible for the non-blocking
    [req_info true], yet the dispatcher evicts it: its queue is as before,
    without the envelope of id 100.  And with 120 entries pending, [Notify]
    of the same request returns [ResourceExhausted], not an empty
    response. *)
Lemma Notify_nonblocking_counterexample :
  isBlocking (req_info true) = false ∧
  (subscriptions srv_full_queue !! 0 = Some 0%nat ∧
   subscription_store srv_full_queue !! 0%nat = Some sub_full ∧
   Subscription.supports sub_full (req_info true) = true ∧
   ∃ srv' s',
     notifySubscribers [0] (req_info true) srv_full_queue = Ok (srv', 100%nat) ∧
     subscriptions srv' !! 0 = None ∧
     subscription_store srv' !! 0%nat = Some s' ∧
     buf (Subscription.channel s') = buf (Subscription.channel sub_full) ∧
     {| RequestId := 100; Request := req_info true |} ∉ buf (Subscription.channel s')) ∧
  Notify None RecvCase [] (req_info true) srv_full_table
  = Ok (srv_full_table, inr (Status ResourceExhausted)).
Proof.
  split; [reflexivity|]. split; [|vm_compute; reflexivity].
  split; [reflexivity|]. split; [reflexivity|]. split; [reflexivity|].
  eexists _, (evicted sub_full).
  split; [vm_compute; reflexivity|].
  split; [reflexivity|]. split; [reflexivity|]. split; [reflexivity|].
  change ({| RequestId := 100; Request := req_info true |}
          ∉ (λ n : nat, {| RequestId := N.of_nat n; Request := req_info true |})
              <$> seq 0 100).
  intros Hin. apply list_elem_of_fmap in Hin as (n & Heq & Hn).
  injection Heq as Heq. apply elem_of_seq in Hn. lia.
Qed.

(** C3, amended.  For a non-blocking request admitted with fewer than 120
    entries pending, the dispatcher files an entry whose single-slot
    response channel holds an empty response and is closed, before the wait
    of [Notify] begins; every eligible subscription whose queue has room
    gets the envelope at the end of its queue; and [Notify] does not wait,
    whatever the other producers, subscribers and responders do between
    the dispatcher and the [select]: it returns the empty response, or the
    error of its context when that context is already done and the
    [select] picks that case. *)
Theorem Notify_nonblocking ctx pick order req srv :
  inv srv → ranges_over order (subscriptions srv) →
  isBlocking req = false →
  (size (pendingNotifications srv) < NotifierMaxPendingNotifications)%nat →
  ∃ srv1 ptr,
    notifySubscribers order req srv = Ok (srv1, ptr) ∧
    pendingNotifications srv1 !! nextNotificationID srv = Some ptr ∧
    pending_store srv1 !! ptr
    = Some (Pending.mk {| RequestId := nextNotificationID srv; Request := req |}
              (mkChan [emptyNotifyResponse] 1 true) true true) ∧
    (∀ k q s,
       subscriptions srv !! k = Some q → subscription_store srv !! q = Some s →
       Subscription.active s = Active req → queue_full s = false →
       subscriptions srv1 !! k = Some q ∧
       subscription_store srv1 !! q
       = Some (enqueued {| RequestId := nextNotificationID srv; Request := req |} s)) ∧
    (∀ srv2,
       rtc (other_step ptr) srv1 srv2 →
       ∃ srv3 r,
         Notify_wait ctx pick ptr srv2 = Ok (srv3, r) ∧
         (r = inl emptyNotifyResponse ∨
          ∃ e, ctx = Some e ∧ pick = DoneCase ∧ r = inr (CtxErr e))) ∧
    ∃ srv2 r,
      Notify ctx pick order req srv = Ok (srv2, r) ∧
      (r = inl emptyNotifyResponse ∨
       ∃ e, ctx = Some e ∧ pick = DoneCase ∧ r = inr (CtxErr e)).
Proof.
  intros Hinv Hord Hnb Hroom.
  destruct (notifySubscribers_spec order req srv Hinv (ranges_over_NoDup _ _ Hord))
    as (regs & sstore & Hrun & _ & _ & _ & Hfan).
  assert (Hfresh : fresh_pending (nextNotificationID srv) req
                   = Pending.mk {| RequestId := nextNotificationID srv; Request := req |}
                       (mkChan [emptyNotifyResponse] 1 true) true true).
  { unfold fresh_pending. by rewrite Hnb. }
  rewrite Hfresh in Hrun.
  eexists _, _. split; [exact Hrun|]. simpl.
  split; [apply lookup_insert_eq|].
  split; [by rewrite lookup_app_r, Nat.sub_diag by lia|].
  split; [|split].
  - intros k q s Hk Hq Hact Hfree.
    destruct (Hfan k q s) as [Hr Hs]; [|done|done|].
    { apply (ranges_over_elem_of _ _ _ Hord). by rewrite Hk. }
    unfold evicts, fanned, Subscription.supports in *. simpl in *.
    rewrite bool_decide_eq_true_2 in Hr, Hs by done. rewrite Hfree in Hr, Hs. done.
  - intros srv2 Hsteps.
    apply (Notify_wait_ready ctx pick _
             (Pending.mk {| RequestId := nextNotificationID srv; Request := req |}
                (mkChan [emptyNotifyResponse] 1 true) true true)
             emptyNotifyResponse []); [done| |done].
    eapply served_stable; [|exact Hsteps| |done].
    + by eapply notifySubscribers_inv.
    + simpl. by rewrite lookup_app_r, Nat.sub_diag by lia.
  - unfold Notify.
    destruct (Nat.leb_spec NotifierMaxPendingNotifications
                (size (pendingNotifications srv))); [lia|].
    rewrite Hrun. simpl.
    apply (Notify_wait_ready ctx pick _
             (Pending.mk {| RequestId := nextNotificationID srv; Request := req |}
                (mkChan [emptyNotifyResponse] 1 true) true true)
             emptyNotifyResponse []); simpl.
    + done.
    + by rewrite lookup_app_r, Nat.sub_diag by lia.
    + done.
Qed.

Lemma Notify_nonblocking_witness :
  ∃ srv2,
    Notify None RecvCase [] (req_info true) NewNotificationService
    = Ok (srv2, inl emptyNotifyResponse).
Proof.
  destruct (Notify_nonblocking None RecvCase [] (req_info true) NewNotificationService)
    as (_ & _ & _ & _ & _ & _ & _ & srv2 & r & Hrun & Hr);
    [apply inv_NewNotificationService | apply ranges_over_nil | reflexivity
    | vm_compute; lia |].
  exists srv2. destruct Hr as [->|(e & He & _)]; [exact Hrun | discriminate He].
Defined.

(** ** Replay on join *)

Lemma replays_entry act srv k ptr p :
  pendingNotifications srv !! k = Some ptr → pending_store srv !! ptr = Some p →
  replays act srv k
  = if bool_decide (Active (Request (Pending.message p)) = act)
    then Some (Pending.message p) else None.
Proof.
  intros Hk Hp. unfold replays. rewrite Hk. simpl. rewrite Hp. simpl.
  by rewrite (bool_decide_ext (act = Active (Request (Pending.message p)))
                (Active (Request (Pending.message p)) = act)).
Qed.

Lemma replays_Some act srv k m :
  replays act srv k = Some m ↔
  ∃ ptr p, pendingNotifications srv !! k = Some ptr ∧
           pending_store srv !! ptr = Some p ∧
           Active (Request (Pending.message p)) = act ∧ m = Pending.message p.
Proof.
  split.
  - unfold replays.
    destruct (pendingNotifications srv !! k) as [ptr|] eqn:Hk; simpl; [|done].
    destruct (pending_store srv !! ptr) as [p|] eqn:Hp; simpl; [|done].
    case_bool_decide; [|done]. intros [= <-]. exists ptr, p. done.
  - intros (ptr & p & Hk & Hp & Hact & ->).
    rewrite (replays_entry act srv k ptr p) by done.
    by rewrite bool_decide_eq_true_2.
Qed.

Lemma drops_entry act srv k ptr p :
  pendingNotifications srv !! k = Some ptr → pending_store srv !! ptr = Some p →
  drops act srv k
  = bool_decide (Active (Request (Pending.message p)) = act)
    && negb (isBlocking (Request (Pending.message p))).
Proof.
  intros Hk Hp. unfold drops. rewrite (replays_entry act srv k ptr p) by done.
  by case_bool_decide.
Qed.

(** C4. When a subscriber joins, its queue receives the envelope of every
    pending entry whose request has the subscriber's [active] flag, and of
    no other.  The replay removes from the table exactly those of these
    entries whose request is not blocking; the blocking ones and the
    ineligible ones stay.  A second joiner with the same flag then receives
    envelopes of blocking requests only: none of the removed entries. *)
Theorem subscribeLocked_replay order req srv :
  inv srv → ranges_over order (pendingNotifications srv) →
  ∃ srv' sptr sub,
    subscribeLocked order req srv = Ok (srv', sptr) ∧
    subscriptions srv' !! nextSubscriptionID srv = Some sptr ∧
    subscription_store srv' !! sptr = Some sub ∧
    Subscription.active sub = SubscribeActive req ∧
    pending_store srv' = pending_store srv ∧
    (∀ m, m ∈ buf (Subscription.channel sub) ↔
          ∃ id ptr p,
            pendingNotifications srv !! id = Some ptr ∧
            pending_store srv !! ptr = Some p ∧
            Active (Request (Pending.message p)) = SubscribeActive req ∧
            m = Pending.message p) ∧
    (∀ id ptr p,
       pendingNotifications srv !! id = Some ptr → pending_store srv !! ptr = Some p →
       Active (Request (Pending.message p)) = SubscribeActive req →
       isBlocking (Request (Pending.message p)) = false →
       pendingNotifications srv' !! id = None) ∧
    (∀ id ptr p,
       pendingNotifications srv !! id = Some ptr → pending_store srv !! ptr = Some p →
       Active (Request (Pending.message p)) = SubscribeActive req →
       isBlocking (Request (Pending.message p)) = true →
       pendingNotifications srv' !! id = Some ptr) ∧
    (∀ id ptr p,
       pendingNotifications srv !! id = Some ptr → pending_store srv !! ptr = Some p →
       Active (Request (Pending.message p)) ≠ SubscribeActive req →
       pendingNotifications srv' !! id = Some ptr) ∧
    (∀ order2 req2,
       ranges_over order2 (pendingNotifications srv') →
       SubscribeActive req2 = SubscribeActive req →
       ∃ srv'' sptr2 sub2,
         subscribeLocked order2 req2 srv' = Ok (srv'', sptr2) ∧
         subscription_store srv'' !! sptr2 = Some sub2 ∧
         (∀ m, m ∈ buf (Subscription.channel sub2) → isBlocking (Request m) = true) ∧
         (∀ id ptr p,
            pendingNotifications srv !! id = Some ptr →
            pending_store srv !! ptr = Some p →
            Active (Request (Pending.message p)) = SubscribeActive req →
            isBlocking (Request (Pending.message p)) = false →
            Pending.message p ∉ buf (Subscription.channel sub2))).
Proof.
  intros Hinv Hord.
  destruct (subscribeLocked_spec order req srv Hinv Hord) as (table' & Hrun & Htab).
  assert (Hinv' : inv (mkService (uint64_incr (nextSubscriptionID srv))
            (<[nextSubscriptionID srv := length (subscription_store srv)]>
               (subscriptions srv))
            (nextNotificationID srv) table'
            (subscription_store srv
               ++ [Subscription.mk (nextSubscriptionID srv) (SubscribeActive req)
                     (mkChan (omap (replays (SubscribeActive req) srv) order)
                        (join_capacity srv) false)
                     false false false])
            (pending_store srv))) by (by eapply subscribeLocked_inv).
  eexists _, _, _. split; [exact Hrun|]. simpl.
  split; [apply lookup_insert_eq|].
  split; [by rewrite lookup_app_r, Nat.sub_diag by lia|]. simpl.
  split; [done|]. split; [done|].
  split; [|split; [|split; [|split]]].
  - intros m. rewrite list_elem_of_omap. split.
    + intros (k & _ & Hrep).
      apply replays_Some in Hrep as (ptr & p & Hk & Hp & Hact & ->).
      exists k, ptr, p. done.
    + intros (k & ptr & p & Hk & Hp & Hact & ->). exists k. split.
      * apply (ranges_over_elem_of _ _ _ Hord). by rewrite Hk.
      * apply replays_Some. eauto 10.
  - intros k ptr p Hk Hp Hact Hnb. rewrite Htab.
    rewrite (drops_entry _ srv k ptr p) by done.
    by rewrite bool_decide_eq_true_2, Hnb.
  - intros k ptr p Hk Hp Hact Hb. rewrite Htab.
    rewrite (drops_entry _ srv k ptr p) by done.
    by rewrite Hb, andb_false_r.
  - intros k ptr p Hk Hp Hact. rewrite Htab.
    rewrite (drops_entry _ srv k ptr p) by done.
    by rewrite bool_decide_eq_false_2.
  - intros order2 req2 Hord2 Hreq2.
    destruct (subscribeLocked_spec order2 req2 _ Hinv' Hord2)
      as (table'' & Hrun2 & _).
    simpl in Hrun2.
    assert (Hblocking : ∀ m,
              m ∈ omap (replays (SubscribeActive req2)
                         (mkService (uint64_incr (nextSubscriptionID srv))
                            (<[nextSubscriptionID srv := length (subscription_store srv)]>
                               (subscriptions srv))
                            (nextNotificationID srv) table'
                            (subscription_store srv
                               ++ [Subscription.mk (nextSubscriptionID srv)
                                     (SubscribeActive req)
                                     (mkChan (omap (replays (SubscribeActive req) srv) order)
                                        (join_capacity srv) false)
                                     false false false])
                            (pending_store srv))) order2 →
              isBlocking (Request m) = true).
    { intros m Hm. apply list_elem_of_omap in Hm as (k & _ & Hrep).
      apply replays_Some in Hrep as (ptr & p & Hk & Hp & Hact & ->).
      simpl in Hk, Hp. rewrite Htab in Hk.
      destruct (drops (SubscribeActive req) srv k) eqn:Hdrops; [done|].
      rewrite (drops_entry _ srv k ptr p) in Hdrops by done.
      rewrite bool_decide_eq_true_2 in Hdrops by congruence.
      simpl in Hdrops. by apply negb_false_iff in Hdrops. }
    eexists _, _, _. split; [exact Hrun2|]. simpl.
    split; [by rewrite lookup_app_r, length_app, Nat.sub_diag by (simpl; lia)|].
    simpl. split; [exact Hblocking|].
    intros k ptr p Hk Hp Hact Hnb Hin. apply Hblocking in Hin. congruence.
Qed.

Example srv_mixed_run :
  ('(srv, _) ← notifySubscribers [] req_confirm NewNotificationService;
   '(srv, _) ← notifySubscribers [] (req_info true) srv;
   Ok srv)
  = Ok srv_mixed.
Proof. vm_compute. reflexivity. Qed.

Lemma inv_srv_mixed : inv srv_mixed.
Proof. apply invb_sound. vm_compute. reflexivity. Qed.

Lemma ranges_over_srv_mixed : ranges_over [1; 0] (pendingNotifications srv_mixed).
Proof.
  unfold ranges_over, srv_mixed. simpl.
  rewrite map_to_list_insert by done. rewrite map_to_list_singleton. done.
Qed.

Lemma subscribeLocked_replay_witness :
  ∃ srv' sptr,
    subscribeLocked [1; 0] {| SubscribeActive := true |} srv_mixed = Ok (srv', sptr) ∧
    pendingNotifications srv' !! 0 = Some 0%nat ∧
    pendingNotifications srv' !! 1 = None.
Proof.
  destruct (subscribeLocked_replay [1; 0] {| SubscribeActive := true |} srv_mixed)
    as (srv' & sptr & sub & Hrun & _ & _ & _ & _ & _ & Hgone & Hstay & _);
    [apply inv_srv_mixed | apply ranges_over_srv_mixed |].
  exists srv', sptr. split; [exact Hrun|]. split.
  - apply (Hstay 0 0%nat (fresh_pending 0 req_confirm)); reflexivity.
  - apply (Hgone 1 1%nat (fresh_pending 1 (req_info true))); reflexivity.
Defined.

(** ** Teardown *)

Lemma unsubscribeLocked_spec srv subscriptionID sptr s :
  inv srv → subscriptions srv !! subscriptionID = Some sptr →
  subscription_store srv !! sptr = Some s →
  unsubscribeLocked subscriptionID srv
  = Ok (store_subscription sptr (evicted s)
          (set_subscriptions (delete subscriptionID (subscriptions srv)) srv)).
Proof.
  intros Hinv Hk Hs. unfold unsubscribeLocked, deref. rewrite Hk, Hs. simpl.
  destruct (inv_subscription_table _ Hinv _ _ Hk) as (s' & Hs' & Hid & Hcl).
  assert (s' = s) as -> by congruence.
  assert (Hwf : subscription_wf s).
  { eapply Forall_lookup_1; [apply (inv_subscription_store _ Hinv) | done]. }
  rewrite Subscription_close_open by done. simpl. by rewrite Hid.
Qed.

Lemma Notify_wait_cancel e pick srv requestId ptr p :
  inv srv → pendingNotifications srv !! requestId = Some ptr →
  pending_store srv !! ptr = Some p →
  isBlocking (Request (Pending.message p)) = true →
  Notify_wait (Some e) pick ptr srv
  = Ok (store_pending ptr
          (Pending.mk (Pending.message p) (mkChan [] 1 true) true true)
          (set_pendingNotifications (delete requestId (pendingNotifications srv)) srv),
        inr (CtxErr e)).
Proof.
  intros Hinv Hk Hp Hb.
  destruct (inv_blocking_entry _ _ _ _ Hinv Hk Hp) as (Hwf & Hid & Hcl).
  rewrite Hb in Hcl. simpl in Hcl.
  unfold Notify_wait, deref. rewrite Hp. simpl.
  rewrite Pending_close_open by done.
  rewrite (open_channel p) by done. simpl. rewrite Hid, Hk. done.
Qed.

(** C9, as stated, fails on the code: the broker has no operation that
    closes the response channel of a waiting producer.  For the blocking
    request dispatched into [srv_confirm] with handle 0, whatever the
    subscribers, the responders and the other producers do, the producer's
    wait never returns [Aborted]. *)
Lemma shutdown_counterexample :
  notifySubscribers [] req_confirm NewNotificationService = Ok (srv_confirm, 0%nat) ∧
  ∀ srv2 ctx pick srv3,
    rtc (other_step 0) srv_confirm srv2 →
    Notify_wait ctx pick 0%nat srv2 ≠ Ok (srv3, inr (Status Aborted)).
Proof.
  split; [reflexivity|]. intros srv2 ctx pick srv3 Hsteps Hwait.
  destruct (awaited_stable 0 (fresh_pending 0 req_confirm) srv_confirm srv2)
    as (p' & Hp' & Haw);
    [apply inv_srv_confirm | done | reflexivity | apply awaited_fresh_pending |].
  destruct (awaited_wait ctx pick 0%nat p' srv2 Hp' Haw)
    as [[Hblocked _]|(srv' & r & Hrun & Hr)]; [congruence|].
  rewrite Hrun in Hwait. injection Hwait as _ ->.
  destruct Hr as [[resp Hr]|(e & _ & Hr)]; discriminate Hr.
Qed.

(** C9, amended.  The broker has no shutdown of its own; what closes its
    objects are the calls themselves.  A registered subscription is removed
    and closed by [unsubscribeLocked], which every exit of [Subscribe]
    runs.  A producer waiting on a blocking entry whose context is done
    removes and closes that entry and returns the error of its context.
    And no in-flight [Notify] returns [Aborted], whatever else runs between
    its dispatcher call and its [select]: it waits, or returns a response,
    or returns the error of its context. *)
Theorem teardown_without_shutdown srv :
  inv srv →
  (∀ subscriptionID sptr s,
     subscriptions srv !! subscriptionID = Some sptr →
     subscription_store srv !! sptr = Some s →
     ∃ srv',
       unsubscribeLocked subscriptionID srv = Ok srv' ∧
       subscriptions srv' !! subscriptionID = None ∧
       subscription_store srv' !! sptr = Some (evicted s)) ∧
  (∀ requestId ptr p e pick,
     pendingNotifications srv !! requestId = Some ptr →
     pending_store srv !! ptr = Some p →
     isBlocking (Request (Pending.message p)) = true →
     ∃ srv' p',
       Notify_wait (Some e) pick ptr srv = Ok (srv', inr (CtxErr e)) ∧
       pendingNotifications srv' !! requestId = None ∧
       pending_store srv' !! ptr = Some p' ∧
       Pending.closed p' = true ∧
       chan_closed (Pending.responseChannel p') = true) ∧
  (∀ ctx pick order req srv1 ptr srv2,
     ranges_over order (subscriptions srv) →
     notifySubscribers order req srv = Ok (srv1, ptr) →
     rtc (other_step ptr) srv1 srv2 →
     (Notify_wait ctx pick ptr srv2 = Blocked ∧ ctx = None) ∨
     ∃ srv3 r,
       Notify_wait ctx pick ptr srv2 = Ok (srv3, r) ∧
       ((∃ resp, r = inl resp) ∨ ∃ e, ctx = Some e ∧ r = inr (CtxErr e))).
Proof.
  intros Hinv. split; [|split].
  - intros subscriptionID sptr s Hk Hs.
    rewrite (unsubscribeLocked_spec srv subscriptionID sptr s) by done.
    eexists. split; [done|]. simpl. split; [apply lookup_delete_eq|].
    apply list_lookup_insert_eq. by eapply lookup_lt_Some.
  - intros requestId ptr p e pick Hk Hp Hb.
    rewrite (Notify_wait_cancel e pick srv requestId ptr p) by done.
    eexists _, (Pending.mk (Pending.message p) (mkChan [] 1 true) true true).
    split; [done|]. simpl. split; [apply lookup_delete_eq|].
    split; [|done]. apply list_lookup_insert_eq. by eapply lookup_lt_Some.
  - intros ctx pick order req srv1 ptr srv2 Hord Hrun Hsteps.
    assert (Hinv1 : inv srv1) by (by eapply notifySubscribers_inv).
    destruct (notifySubscribers_spec order req srv Hinv (ranges_over_NoDup _ _ Hord))
      as (regs & sstore & Hrun' & _).
    rewrite Hrun' in Hrun. injection Hrun as <- <-.
    destruct (awaited_stable (length (pending_store srv))
                (fresh_pending (nextNotificationID srv) req) _ srv2 Hinv1 Hsteps)
      as (p' & Hp' & Haw).
    + simpl. by rewrite lookup_app_r, Nat.sub_diag by lia.
    + apply awaited_fresh_pending.
    + by eapply awaited_wait.
Qed.

Lemma teardown_without_shutdown_witness :
  ∃ srv',
    Notify_wait (Some Canceled) DoneCase 0%nat srv_confirm
    = Ok (srv', inr (CtxErr Canceled)) ∧
    pendingNotifications srv' !! 0 = None.
Proof.
  destruct (teardown_without_shutdown srv_confirm inv_srv_confirm)
    as (_ & Hcancel & _).
  destruct (Hcancel 0 0%nat (fresh_pending 0 req_confirm) Canceled DoneCase)
    as (srv' & p' & Hrun & Hgone & _); [reflexivity | reflexivity | reflexivity |].
  exists srv'. split; [exact Hrun | exact Hgone].
Defined.

(** * Further properties of the broker *)

(** ** Invariants of the reachable states *)

Lemma reachable_srv_confirm : reachable srv_confirm.
Proof.
  apply rtc_once. exists L_notifySubscribers.
  apply (step_notifySubscribers [] req_confirm _ _ 0%nat);
    [apply ranges_over_nil | reflexivity].
Qed.

(** X1. In every state the broker reaches: a registered subscription is
    stored, carries the id it is registered under and is open; a pending
    entry in the table is stored, carries the id it is filed under and is
    closed exactly when its request is not blocking; for every stored
    object the [closed] flag, the [sync.Once] and the channel's closed
    state agree; a response channel has one slot, empty while the entry is
    open. *)
Theorem reachable_invariant srv :
  reachable srv →
  (∀ k q, subscriptions srv !! k = Some q →
          ∃ s, subscription_store srv !! q = Some s ∧
               Subscription.id s = k ∧
               Subscription.closed s = false ∧
               chan_closed (Subscription.channel s) = false) ∧
  (∀ k q, pendingNotifications srv !! k = Some q →
          ∃ p, pending_store srv !! q = Some p ∧
               RequestId (Pending.message p) = k ∧
               (Pending.closed p = true ↔
                isBlocking (Request (Pending.message p)) = false)) ∧
  (∀ q p, pending_store srv !! q = Some p →
          Pending.once p = Pending.closed p ∧
          chan_closed (Pending.responseChannel p) = Pending.closed p ∧
          cap (Pending.responseChannel p) = 1%nat ∧
          (Pending.closed p = false → buf (Pending.responseChannel p) = [])) ∧
  (∀ q s, subscription_store srv !! q = Some s →
          Subscription.once s = Subscription.closed s ∧
          chan_closed (Subscription.channel s) = Subscription.closed s).
Proof.
  intros Hreach. apply reachable_inv in Hreach as [Hps Hpt Hss Hst].
  split; [|split; [|split]].
  - intros k q Hk. destruct (Hst k q Hk) as (s & Hs & Hid & Hcl).
    exists s. repeat split; try done.
    destruct (Forall_lookup_1 _ _ _ _ Hss Hs) as [_ Hc]. congruence.
  - intros k q Hk. destruct (Hpt k q Hk) as (p & Hp & Hid & Hcl).
    exists p. repeat split; try done.
    + intros Hc. rewrite Hc in Hcl. by destruct (isBlocking _).
    + intros Hb. by rewrite Hb in Hcl.
  - intros q p Hp. exact (Forall_lookup_1 _ _ _ _ Hps Hp).
  - intros q s Hs. exact (Forall_lookup_1 _ _ _ _ Hss Hs).
Qed.

Lemma reachable_invariant_witness :
  ∃ p, pending_store srv_confirm !! 0%nat = Some p ∧
       RequestId (Pending.message p) = 0 ∧
       (Pending.closed p = true ↔ isBlocking (Request (Pending.message p)) = false).
Proof.
  destruct (reachable_invariant srv_confirm reachable_srv_confirm)
    as (_ & Htable & _).
  exact (Htable 0 0%nat eq_refl).
Defined.

(** ** What the response channels hold *)

Lemma Pending_close_buf p p' :
  Pending.close p = Ok p' →
  buf (Pending.responseChannel p') = buf (Pending.responseChannel p) ∧
  Pending.message p' = Pending.message p.
Proof.
  unfold Pending.close, chan_close. destruct (Pending.once p); [by intros [= <-]|].
  destruct (chan_closed _); simpl; [done|]. by intros [= <-].
Qed.

Lemma slot_ok_fresh_pending requestID req : slot_ok (fresh_pending requestID req).
Proof.
  unfold fresh_pending, slot_ok. destruct (isBlocking req); simpl.
  - split; [lia | constructor].
  - split; [lia|]. by repeat constructor.
Qed.

Lemma slot_step l srv srv' :
  inv srv → Forall slot_ok (pending_store srv) → step l srv srv' →
  Forall slot_ok (pending_store srv').
Proof.
  intros Hinv Hslot Hstep.
  destruct Hstep as [order req srv srv' ptr0 Hord H|ctx pick ptr srv srv' r H
                    |order req srv srv' sptr Hord H
                    |stream_done send_ok pick sptr srv srv' r H
                    |subscriptionID srv srv' H|req srv srv' r H].
  - destruct (notifySubscribers_spec order req srv Hinv (ranges_over_NoDup _ _ Hord))
      as (regs & sstore & Hrun & _).
    rewrite Hrun in H. injection H as <- <-. simpl.
    apply Forall_app. split; [done|]. apply Forall_singleton, slot_ok_fresh_pending.
  - unfold Notify_wait in H. apply bind_Ok in H as (p & Hp & H).
    apply deref_Ok in Hp. pose proof (Forall_lookup_1 _ _ _ _ Hslot Hp) as [Hlen Hval].
    destruct (select2 _ _ _) as [[]|]; [| |done].
    + unfold chan_try_recv in H.
      destruct (buf (Pending.responseChannel p)) as [|v rest] eqn:Hbuf.
      * destruct (chan_closed _); [|done]. by injection H as <- <-.
      * injection H as <- <-. simpl. apply Forall_insert; [done|].
        split; simpl; [simpl in Hlen; lia|]. by apply Forall_cons in Hval as [_ ?].
    + apply bind_Ok in H as (err & _ & H).
      destruct (pendingNotifications srv !! _); [|by injection H as <- <-].
      apply bind_Ok in H as (p' & Hclose & [= <- <-]). simpl.
      apply Forall_insert; [done|].
      apply Pending_close_buf in Hclose as [Hb Hm]. unfold slot_ok.
      by rewrite Hb, Hm.
  - destruct (subscribeLocked_spec order req srv Hinv Hord) as (table' & Hrun & _).
    rewrite Hrun in H. injection H as <- <-. done.
  - by rewrite (Subscribe_turn_pending _ _ _ _ _ _ _ H).
  - by rewrite (unsubscribeLocked_pending _ _ _ H).
  - destruct req as [requestId response].
    destruct (pendingNotifications srv !! requestId) as [ptr|] eqn:Hk;
      [|rewrite Respond_unknown in H by done; by injection H as <- <-].
    destruct (inv_pending_table _ Hinv _ _ Hk) as (p & Hp & Hid & _).
    assert (Hwf : pending_wf p).
    { eapply Forall_lookup_1; [apply (inv_pending_store _ Hinv) | done]. }
    destruct response as [resp|];
      [|unfold Respond, deref in H; simpl in H; by rewrite Hk, Hp in H].
    rewrite (Respond_spec srv requestId ptr p resp) in H by done.
    destruct (validateResponse resp _) eqn:Hvalid; [|by injection H as <- <-].
    injection H as <- <-. destruct (Pending.closed p); simpl; [done|].
    apply Forall_insert; [done|]. split; simpl; [lia|]. by repeat constructor.
Qed.

Lemma reachable_slot_ok srv : reachable srv → Forall slot_ok (pending_store srv).
Proof.
  unfold reachable. revert srv.
  apply (rtc_ind_r (λ srv, inv srv ∧ Forall slot_ok (pending_store srv))
           NewNotificationService).
  - split; [apply inv_NewNotificationService | constructor].
  - intros srv1 srv2 _ [l Hstep] [Hinv Hslot].
    split; [by eapply step_inv | by eapply slot_step].
Qed.

(** X2. In every state the broker reaches, a response channel holds at
    most one value, and only a value [validateResponse] accepts for the
    entry's request; so whatever response [Notify] returns to a producer
    is valid for the request that producer submitted. *)
Theorem response_slot srv :
  reachable srv →
  (∀ q p, pending_store srv !! q = Some p →
          (length (buf (Pending.responseChannel p)) ≤ 1)%nat ∧
          ∀ resp, resp ∈ buf (Pending.responseChannel p) →
                  validateResponse resp (Request (Pending.message p)) = true) ∧
  (∀ ctx pick ptr p srv' resp,
     pending_store srv !! ptr = Some p →
     Notify_wait ctx pick ptr srv = Ok (srv', inl resp) →
     validateResponse resp (Request (Pending.message p)) = true).
Proof.
  intros Hreach. pose proof (reachable_slot_ok srv Hreach) as Hslot.
  assert (Hall : ∀ q p, pending_store srv !! q = Some p →
            (length (buf (Pending.responseChannel p)) ≤ 1)%nat ∧
            ∀ resp, resp ∈ buf (Pending.responseChannel p) →
                    validateResponse resp (Request (Pending.message p)) = true).
  { intros q p Hp. destruct (Forall_lookup_1 _ _ _ _ Hslot Hp) as [Hlen Hval].
    split; [done|]. by apply Forall_forall. }
  split; [exact Hall|].
  intros ctx pick ptr p srv' resp Hp H. destruct (Hall ptr p Hp) as [_ Hval].
  apply Hval. unfold Notify_wait, deref in H. rewrite Hp in H. simpl in H.
  destruct (select2 _ _ _) as [[]|]; [| |done].
  - unfold chan_try_recv in H.
    destruct (buf (Pending.responseChannel p)) as [|v rest].
    + by destruct (chan_closed _).
    + injection H as _ ->. left.
  - destruct ctx as [e|]; simpl in H; [|done].
    destruct (pendingNotifications srv !! _); simpl in H; [|done].
    by destruct (Pending.close p).
Qed.

Lemma reachable_srv_info : reachable srv_info.
Proof.
  apply rtc_once. exists L_notifySubscribers.
  apply (step_notifySubscribers [] (req_info true) _ _ 0%nat);
    [apply ranges_over_nil | reflexivity].
Qed.

Lemma response_slot_witness :
  ∃ srv' resp,
    Notify_wait None RecvCase 0%nat srv_info = Ok (srv', inl resp) ∧
    validateResponse resp (req_info true) = true.
Proof.
  destruct (response_slot srv_info reachable_srv_info) as [_ Hwait].
  eexists _, emptyNotifyResponse. split; [reflexivity|].
  exact (Hwait None RecvCase 0%nat (fresh_pending 0 (req_info true)) _ _
           eq_refl eq_refl).
Defined.

(** ** Respond and producer cancellation *)

(** X3. [Respond] answers a request at most once: once it has acknowledged
    a response for an id, the id is gone from the table, and every further
    [Respond] for that id returns [DeadlineExceeded] and changes nothing. *)
Theorem Respond_at_most_once srv srv' requestId response :
  inv srv →
  Respond {| RespondRequestId := requestId; Response := response |} srv
  = Ok (srv', inl RespondAck) →
  pendingNotifications srv' !! requestId = None ∧
  ∀ response2,
    Respond {| RespondRequestId := requestId; Response := response2 |} srv'
    = Ok (srv', inr (Status DeadlineExceeded)).
Proof.
  intros Hinv H.
  assert (Hgone : pendingNotifications srv' !! requestId = None).
  { destruct (pendingNotifications srv !! requestId) as [ptr|] eqn:Hk;
      [|by rewrite Respond_unknown in H by done].
    destruct (inv_pending_table _ Hinv _ _ Hk) as (p & Hp & Hid & _).
    assert (Hwf : pending_wf p).
    { eapply Forall_lookup_1; [apply (inv_pending_store _ Hinv) | done]. }
    destruct response as [resp|];
      [|unfold Respond, deref in H; simpl in H; by rewrite Hk, Hp in H].
    rewrite (Respond_spec srv requestId ptr p resp) in H by done.
    destruct (validateResponse resp _); [|done].
    injection H as <-. simpl. apply lookup_delete_eq. }
  split; [done|]. intros response2. by apply Respond_unknown.
Qed.

Lemma Respond_at_most_once_witness :
  ∃ srv',
    Respond {| RespondRequestId := 0; Response := Some resp_yes |} srv_confirm
    = Ok (srv', inl RespondAck) ∧
    Respond {| RespondRequestId := 0; Response := Some resp_yes |} srv'
    = Ok (srv', inr (Status DeadlineExceeded)).
Proof.
  eexists. split; [reflexivity|].
  exact (proj2 (Respond_at_most_once srv_confirm _ 0 (Some resp_yes)
                  inv_srv_confirm eq_refl) (Some resp_yes)).
Defined.

(** X4. When the context of a producer waiting on a blocking entry is done
    before any response, the producer returns the error of its context,
    and a [Respond] that comes later for that id finds nothing: it returns
    [DeadlineExceeded] and changes nothing. *)
Theorem Notify_cancel_then_Respond e pick srv requestId ptr p :
  inv srv →
  pendingNotifications srv !! requestId = Some ptr →
  pending_store srv !! ptr = Some p →
  isBlocking (Request (Pending.message p)) = true →
  ∃ srv',
    Notify_wait (Some e) pick ptr srv = Ok (srv', inr (CtxErr e)) ∧
    pendingNotifications srv' = delete requestId (pendingNotifications srv) ∧
    ∀ response,
      Respond {| RespondRequestId := requestId; Response := response |} srv'
      = Ok (srv', inr (Status DeadlineExceeded)).
Proof.
  intros Hinv Hk Hp Hb.
  rewrite (Notify_wait_cancel e pick srv requestId ptr p) by done.
  eexists. split; [done|]. split; [done|].
  intros response. apply Respond_unknown. simpl. apply lookup_delete_eq.
Qed.

Lemma Notify_cancel_then_Respond_witness :
  ∃ srv',
    Notify_wait (Some Canceled) DoneCase 0%nat srv_confirm
    = Ok (srv', inr (CtxErr Canceled)) ∧
    Respond {| RespondRequestId := 0; Response := Some resp_yes |} srv'
    = Ok (srv', inr (Status DeadlineExceeded)).
Proof.
  destruct (Notify_cancel_then_Respond Canceled DoneCase srv_confirm 0 0%nat
              (fresh_pending 0 req_confirm))
    as (srv' & Hrun & _ & Hlate);
    [apply inv_srv_confirm | reflexivity | reflexivity | reflexivity |].
  exists srv'. split; [exact Hrun | exact (Hlate (Some resp_yes))].
Defined.

(** X5. When [Respond] has handed over a response and the producer's
    context is done as well, the producer returns one of the two: the
    response, if its [select] takes the channel; or the error of its
    context, and then it touches nothing, the entry being out of the table
    already. *)
Theorem Respond_then_cancel srv requestId ptr p resp :
  inv srv →
  pendingNotifications srv !! requestId = Some ptr →
  pending_store srv !! ptr = Some p →
  isBlocking (Request (Pending.message p)) = true →
  validateResponse resp (Request (Pending.message p)) = true →
  ∃ srv1,
    Respond {| RespondRequestId := requestId; Response := Some resp |} srv
    = Ok (srv1, inl RespondAck) ∧
    (∀ e, Notify_wait (Some e) DoneCase ptr srv1 = Ok (srv1, inr (CtxErr e))) ∧
    (∀ ctx, ∃ srv2, Notify_wait ctx RecvCase ptr srv1 = Ok (srv2, inl resp)).
Proof.
  intros Hinv Hk Hp Hb Hvalid.
  destruct (inv_blocking_entry _ _ _ _ Hinv Hk Hp) as (Hwf & Hid & Hcl).
  rewrite Hb in Hcl. simpl in Hcl.
  rewrite (Respond_spec srv requestId ptr p resp) by done.
  rewrite Hvalid, Hcl. eexists. split; [done|].
  assert (Hstored : <[ptr := responded resp p]> (pending_store srv) !! ptr
                    = Some (responded resp p)).
  { apply list_lookup_insert_eq. by eapply lookup_lt_Some. }
  split.
  - intros e. unfold Notify_wait, deref. simpl. rewrite Hstored. simpl.
    by rewrite Hid, lookup_delete_eq.
  - intros ctx. unfold Notify_wait, deref. simpl. rewrite Hstored. simpl.
    destruct ctx; simpl; eauto.
Qed.

Lemma Respond_then_cancel_witness :
  ∃ srv1,
    Respond {| RespondRequestId := 0; Response := Some resp_yes |} srv_confirm
    = Ok (srv1, inl RespondAck) ∧
    Notify_wait (Some Canceled) DoneCase 0%nat srv1
    = Ok (srv1, inr (CtxErr Canceled)).
Proof.
  destruct (Respond_then_cancel srv_confirm 0 0%nat (fresh_pending 0 req_confirm)
              resp_yes)
    as (srv1 & Hack & Hcancel & _);
    [apply inv_srv_confirm | reflexivity | reflexivity | reflexivity | reflexivity |].
  exists srv1. split; [exact Hack | exact (Hcancel Canceled)].
Defined.



(** ** Ordering of the fan-out *)

Lemma fanned_room m s :
  Subscription.active s = Active (Request m) →
  (length (buf (Subscription.channel s)) < cap (Subscription.channel s))%nat →
  fanned m s = enqueued m s ∧ evicts m s = false.
Proof.
  intros Hact Hroom. unfold fanned, evicts, Subscription.supports, queue_full.
  rewrite bool_decide_eq_true_2 by done.
  destruct (Nat.ltb_spec (length (buf (Subscription.channel s)))
              (cap (Subscription.channel s))); [done | lia].
Qed.

Lemma uint64_incr_ne n : n < 2 ^ 64 → uint64_incr n ≠ n.
Proof.
  unfold uint64_incr. change (2 ^ 64) with 18446744073709551616. intros Hn.
  destruct (decide (n + 1 < 18446744073709551616)) as [Hlt|Hge].
  - rewrite N.mod_small by done. lia.
  - assert (n + 1 = 18446744073709551616) as -> by lia.
    rewrite N.Div0.mod_same. lia.
Qed.

(** X7. Two requests dispatched one after the other get consecutive ids
    (modulo [2^64]), different from each other, and a subscription that is
    eligible for both and has room for both finds their envelopes at the
    end of its queue in the order of dispatch, whatever the order of the
    two map iterations. *)
Theorem fanout_fifo order1 order2 req1 req2 srv k q s :
  inv srv → ranges_over order1 (subscriptions srv) →
  subscriptions srv !! k = Some q → subscription_store srv !! q = Some s →
  Subscription.active s = Active req1 → Subscription.active s = Active req2 →
  (length (buf (Subscription.channel s)) + 2 ≤ cap (Subscription.channel s))%nat →
  ∃ srv1 ptr1,
    notifySubscribers order1 req1 srv = Ok (srv1, ptr1) ∧
    nextNotificationID srv1 = uint64_incr (nextNotificationID srv) ∧
    (nextNotificationID srv < 2 ^ 64 →
     nextNotificationID srv1 ≠ nextNotificationID srv) ∧
    (ranges_over order2 (subscriptions srv1) →
     ∃ srv2 ptr2 s2,
       notifySubscribers order2 req2 srv1 = Ok (srv2, ptr2) ∧
       subscription_store srv2 !! q = Some s2 ∧
       buf (Subscription.channel s2)
       = buf (Subscription.channel s)
         ++ [ {| RequestId := nextNotificationID srv; Request := req1 |};
              {| RequestId := uint64_incr (nextNotificationID srv); Request := req2 |} ]).
Proof.
  intros Hinv Hord1 Hk Hq Hact1 Hact2 Hroom.
  destruct (notifySubscribers_spec order1 req1 srv Hinv (ranges_over_NoDup _ _ Hord1))
    as (regs & sstore & Hrun & _ & _ & _ & Hfan).
  destruct (Hfan k q s) as [Hr Hs]; [|done|done|].
  { apply (ranges_over_elem_of _ _ _ Hord1). by rewrite Hk. }
  destruct (fanned_room {| RequestId := nextNotificationID srv; Request := req1 |} s)
    as [Hfanned Hevicts]; [done | lia |].
  rewrite Hfanned in Hs. rewrite Hevicts in Hr.
  eexists _, _. split; [exact Hrun|]. simpl. split; [done|].
  split; [apply uint64_incr_ne|].
  intros Hord2. simpl in Hord2.
  assert (Hinv1 : inv (mkService (nextSubscriptionID srv) regs
                         (uint64_incr (nextNotificationID srv))
                         (<[nextNotificationID srv := length (pending_store srv)]>
                            (pendingNotifications srv))
                         sstore
                         (pending_store srv
                            ++ [fresh_pending (nextNotificationID srv) req1])))
    by (by eapply notifySubscribers_inv).
  destruct (notifySubscribers_spec order2 req2 _ Hinv1 (ranges_over_NoDup _ _ Hord2))
    as (regs2 & sstore2 & Hrun2 & _ & _ & _ & Hfan2).
  simpl in Hrun2, Hfan2.
  destruct (Hfan2 k q
              (enqueued {| RequestId := nextNotificationID srv; Request := req1 |} s))
    as [_ Hs2]; [|done|done|].
  { apply (ranges_over_elem_of _ _ _ Hord2). by rewrite Hr. }
  destruct (fanned_room
              {| RequestId := uint64_incr (nextNotificationID srv); Request := req2 |}
              (enqueued {| RequestId := nextNotificationID srv; Request := req1 |} s))
    as [Hfanned2 _]; [done | simpl; rewrite length_app; simpl; lia |].
  rewrite Hfanned2 in Hs2.
  eexists _, _, _. split; [exact Hrun2|]. split; [exact Hs2|].
  simpl. by rewrite <- app_assoc.
Qed.

Lemma inv_srv_joined : inv srv_joined.
Proof. apply invb_sound. vm_compute. reflexivity. Qed.

Example srv_joined_run :
  subscribeLocked [] {| SubscribeActive := true |} NewNotificationService
  = Ok (srv_joined, 0%nat).
Proof. reflexivity. Qed.

Lemma fanout_fifo_witness :
  ∃ srv1 ptr1 srv2 ptr2 s2,
    notifySubscribers [0] (req_info true) srv_joined = Ok (srv1, ptr1) ∧
    notifySubscribers [0] req_confirm srv1 = Ok (srv2, ptr2) ∧
    subscription_store srv2 !! 0%nat = Some s2 ∧
    buf (Subscription.channel s2)
    = [ {| RequestId := 0; Request := req_info true |};
        {| RequestId := 1; Request := req_confirm |} ].
Proof.
  destruct (fanout_fifo [0] [0] (req_info true) req_confirm srv_joined 0 0%nat
              (Subscription.mk 0 true (mkChan [] 100 false) false false false))
    as (srv1 & ptr1 & Hrun1 & Hnext & _ & Hsecond);
    [apply inv_srv_joined | apply ranges_over_singleton | reflexivity | reflexivity
    | reflexivity | reflexivity | simpl; lia |].
  assert (Hsubs : subscriptions srv1 = {[ 0 := 0%nat ]}).
  { vm_compute in Hrun1. injection Hrun1 as <- _. reflexivity. }
  destruct Hsecond as (srv2 & ptr2 & s2 & Hrun2 & Hs2 & Hbuf).
  { rewrite Hsubs. apply ranges_over_singleton. }
  exists srv1, ptr1, srv2, ptr2, s2.
  split; [exact Hrun1|]. split; [exact Hrun2|]. split; [exact Hs2 | exact Hbuf].
Defined.

(** ** Eviction seen from the subscriber *)




(** ** Unsubscribing *)

(** X10. [unsubscribeLocked] always completes; it removes the id from the
    registry; an id that is not registered leaves the service as it is; and
    unsubscribing the same id again changes nothing, so the subscription's
    channel is not closed a second time. *)
Theorem unsubscribeLocked_idempotent subscriptionID srv :
  inv srv →
  ∃ srv1,
    unsubscribeLocked subscriptionID srv = Ok srv1 ∧
    subscriptions srv1 !! subscriptionID = None ∧
    (subscriptions srv !! subscriptionID = None → srv1 = srv) ∧
    unsubscribeLocked subscriptionID srv1 = Ok srv1.
Proof.
  intros Hinv.
  destruct (subscriptions srv !! subscriptionID) as [sptr|] eqn:Hk.
  - destruct (inv_subscription_table _ Hinv _ _ Hk) as (s & Hs & _).
    rewrite (unsubscribeLocked_spec srv subscriptionID sptr s) by done.
    eexists. split; [done|]. simpl. split; [apply lookup_delete_eq|].
    split; [done|]. unfold unsubscribeLocked. simpl. by rewrite lookup_delete_eq.
  - exists srv. unfold unsubscribeLocked. rewrite Hk. done.
Qed.

Lemma unsubscribeLocked_idempotent_witness :
  ∃ srv1,
    unsubscribeLocked 0 srv_joined = Ok srv1 ∧
    unsubscribeLocked 0 srv1 = Ok srv1.
Proof.
  destruct (unsubscribeLocked_idempotent 0 srv_joined inv_srv_joined)
    as (srv1 & Hrun & _ & _ & Hagain).
  exists srv1. split; [exact Hrun | exact Hagain].
Defined.

(** ** The critical sections complete *)

Lemma notify_loop_total m order srv :
  inv srv → ∃ srv', notify_loop m order srv = Ok srv'.
Proof.
  revert srv. induction order as [|key rest IH]; intros srv Hinv; simpl; [eauto|].
  pose proof (notify_one_spec m key srv Hinv) as Hone.
  destruct (subscriptions srv !! key) as [sptr|] eqn:Hk.
  - destruct Hone as (s & _ & _ & _ & Hone). rewrite Hone. simpl.
    apply IH. eapply notify_one_inv; [exact Hinv | exact Hone].
  - rewrite Hone. simpl. by apply IH.
Qed.

(** X11. In a state that satisfies the invariant the critical sections run
    to their end: they never send on a closed channel, never close a
    channel twice, never follow a dangling pointer, and never wait on a
    channel while holding the mutex.  The dispatcher completes for any
    sequence of registry keys, [subscribeLocked] for any iteration of the
    table, [unsubscribeLocked] for any id. *)
Theorem critical_sections_complete srv :
  inv srv →
  (∀ order req, ∃ srv' ptr, notifySubscribers order req srv = Ok (srv', ptr) ∧ inv srv') ∧
  (∀ order req,
     ranges_over order (pendingNotifications srv) →
     ∃ srv' sptr, subscribeLocked order req srv = Ok (srv', sptr) ∧ inv srv') ∧
  (∀ subscriptionID,
     ∃ srv', unsubscribeLocked subscriptionID srv = Ok srv' ∧ inv srv').
Proof.
  intros Hinv. split; [|split].
  - intros order req.
    destruct (notify_loop_total
                {| RequestId := nextNotificationID srv; Request := req |} order
                (set_nextNotificationID (uint64_incr (nextNotificationID srv)) srv))
      as (srv1 & Hloop); [by apply inv_set_nextNotificationID|].
    pose proof (notifySubscribers_unfold order req srv) as Hunfold.
    rewrite Hloop in Hunfold. simpl in Hunfold.
    eexists _, _. split; [exact Hunfold|]. by eapply notifySubscribers_inv.
  - intros order req Hord.
    destruct (subscribeLocked_spec order req srv Hinv Hord) as (table' & Hrun & _).
    eexists _, _. split; [exact Hrun|]. by eapply subscribeLocked_inv.
  - intros subscriptionID.
    destruct (subscriptions srv !! subscriptionID) as [sptr|] eqn:Hk.
    + destruct (inv_subscription_table _ Hinv _ _ Hk) as (s & Hs & _).
      pose proof (unsubscribeLocked_spec srv subscriptionID sptr s Hinv Hk Hs) as Hrun.
      eexists. split; [exact Hrun|]. by eapply unsubscribeLocked_inv.
    + exists srv. unfold unsubscribeLocked. by rewrite Hk.
Qed.

Lemma critical_sections_complete_witness :
  ∃ srv' ptr, notifySubscribers [0; 0; 5] (req_info true) srv_full_queue = Ok (srv', ptr).
Proof.
  destruct (critical_sections_complete srv_full_queue inv_srv_full_queue)
    as (Hnotify & _).
  destruct (Hnotify [0; 0; 5] (req_info true)) as (srv' & ptr & Hrun & _).
  exists srv', ptr. exact Hrun.
Defined.

(** X12. [Respond] never waits on the response channel.  In a state that
    satisfies the invariant it ends in exactly one of four ways: the id is
    not pending and it returns [DeadlineExceeded]; the id is pending and
    the request carries no response, and it dereferences nil; the response
    is invalid and it returns [InvalidArgument]; the response is valid and
    it acknowledges, the id leaving the table.  Only the last changes the
    service. *)
Theorem Respond_outcomes srv requestId response :
  inv srv →
  match pendingNotifications srv !! requestId, response with
  | None, _ =>
      Respond {| RespondRequestId := requestId; Response := response |} srv
      = Ok (srv, inr (Status DeadlineExceeded))
  | Some _, None =>
      Respond {| RespondRequestId := requestId; Response := response |} srv = Panic
  | Some ptr, Some resp =>
      ∃ p, pending_store srv !! ptr = Some p ∧
        if validateResponse resp (Request (Pending.message p))
        then ∃ srv',
               Respond {| RespondRequestId := requestId; Response := response |} srv
               = Ok (srv', inl RespondAck) ∧
               pendingNotifications srv'
               = delete requestId (pendingNotifications srv) ∧
               subscriptions srv' = subscriptions srv ∧
               subscription_store srv' = subscription_store srv
        else Respond {| RespondRequestId := requestId; Response := response |} srv
             = Ok (srv, inr (Status InvalidArgument))
  end.
Proof.
  intros Hinv.
  destruct (pendingNotifications srv !! requestId) as [ptr|] eqn:Hk;
    [|destruct response; by apply Respond_unknown].
  destruct (inv_pending_table _ Hinv _ _ Hk) as (p & Hp & Hid & _).
  assert (Hwf : pending_wf p).
  { eapply Forall_lookup_1; [apply (inv_pending_store _ Hinv) | done]. }
  destruct response as [resp|];
    [|unfold Respond, deref; simpl; by rewrite Hk, Hp].
  exists p. split; [done|].
  rewrite (Respond_spec srv requestId ptr p resp) by done.
  destruct (validateResponse resp _); [|done].
  eexists. split; [done|]. simpl. by destruct (Pending.closed p).
Qed.

Lemma Respond_outcomes_witness :
  Respond {| RespondRequestId := 0; Response := None |} srv_confirm = Panic.
Proof. exact (Respond_outcomes srv_confirm 0 None inv_srv_confirm). Defined.

(** ** What a finished or cancelled Notify leaves behind *)

(** X13. A non-blocking [Notify] that has returned its empty response
    leaves its entry in the pending table: the producer's receive does not
    remove it.  With a fresh id the table is one entry larger than before,
    so such entries count against the limit of 120 until a subscriber
    joins or a [Respond] names them. *)
Theorem nonblocking_entry_stays pick order req srv :
  inv srv → ranges_over order (subscriptions srv) →
  isBlocking req = false →
  (size (pendingNotifications srv) < NotifierMaxPendingNotifications)%nat →
  ∃ srv2,
    Notify None pick order req srv = Ok (srv2, inl emptyNotifyResponse) ∧
    pendingNotifications srv2
    = <[nextNotificationID srv := length (pending_store srv)]> (pendingNotifications srv) ∧
    (pendingNotifications srv !! nextNotificationID srv = None →
     size (pendingNotifications srv2) = S (size (pendingNotifications srv))).
Proof.
  intros Hinv Hord Hnb Hroom.
  destruct (notifySubscribers_spec order req srv Hinv (ranges_over_NoDup _ _ Hord))
    as (regs & sstore & Hrun & _).
  unfold Notify.
  destruct (Nat.leb_spec NotifierMaxPendingNotifications
              (size (pendingNotifications srv))); [lia|].
  rewrite Hrun. simpl.
  rewrite (Notify_wait_value pick _ (fresh_pending (nextNotificationID srv) req)
             emptyNotifyResponse []).
  - eexists. split; [done|]. simpl. split; [done|].
    intros Hfresh. by apply map_size_insert_None.
  - simpl. by rewrite lookup_app_r, Nat.sub_diag by lia.
  - unfold fresh_pending. by rewrite Hnb.
Qed.

Lemma nonblocking_entry_stays_witness :
  ∃ srv2,
    Notify None RecvCase [] (req_info true) NewNotificationService
    = Ok (srv2, inl emptyNotifyResponse) ∧
    size (pendingNotifications srv2) = 1%nat.
Proof.
  destruct (nonblocking_entry_stays RecvCase [] (req_info true) NewNotificationService)
    as (srv2 & Hrun & _ & Hsize);
    [apply inv_NewNotificationService | apply ranges_over_nil | reflexivity
    | vm_compute; lia |].
  exists srv2. split; [exact Hrun | exact (Hsize eq_refl)].
Defined.

(** X16. A blocking [Notify] that is admitted waits as long as its context
    is live and nothing else runs.  When its context is already done it
    returns the error of that context and takes its entry out of the table
    again, so the table is as it was without the new id; the envelope has
    gone out all the same: every eligible subscription with room holds
    it. *)
Theorem Notify_blocking pick order req srv :
  inv srv → ranges_over order (subscriptions srv) →
  isBlocking req = true →
  (size (pendingNotifications srv) < NotifierMaxPendingNotifications)%nat →
  Notify None pick order req srv = Blocked ∧
  ∀ e,
    ∃ srv2,
      Notify (Some e) pick order req srv = Ok (srv2, inr (CtxErr e)) ∧
      pendingNotifications srv2
      = delete (nextNotificationID srv) (pendingNotifications srv) ∧
      ∀ k q s,
        subscriptions srv !! k = Some q → subscription_store srv !! q = Some s →
        Subscription.active s = Active req → queue_full s = false →
        subscription_store srv2 !! q
        = Some (enqueued {| RequestId := nextNotificationID srv; Request := req |} s).
Proof.
  intros Hinv Hord Hb Hroom.
  destruct (notifySubscribers_spec order req srv Hinv (ranges_over_NoDup _ _ Hord))
    as (regs & sstore & Hrun & _ & _ & _ & Hfan).
  assert (Hinv1 : inv (mkService (nextSubscriptionID srv) regs
                         (uint64_incr (nextNotificationID srv))
                         (<[nextNotificationID srv := length (pending_store srv)]>
                            (pendingNotifications srv))
                         sstore
                         (pending_store srv
                            ++ [fresh_pending (nextNotificationID srv) req])))
    by (by eapply notifySubscribers_inv).
  assert (Hstored : (pending_store srv ++ [fresh_pending (nextNotificationID srv) req])
                    !! length (pending_store srv)
                    = Some (fresh_pending (nextNotificationID srv) req))
    by (by rewrite lookup_app_r, Nat.sub_diag by lia).
  unfold Notify.
  destruct (Nat.leb_spec NotifierMaxPendingNotifications
              (size (pendingNotifications srv))); [lia|].
  rewrite Hrun. simpl. split.
  - eapply Notify_wait_open; [exact Hstored | apply fresh_pending_wf |].
    by rewrite fresh_pending_closed, Hb.
  - intros e.
    rewrite (Notify_wait_cancel e pick _ (nextNotificationID srv)
               (length (pending_store srv))
               (fresh_pending (nextNotificationID srv) req) Hinv1);
      [|apply lookup_insert_eq | exact Hstored
       |by rewrite fresh_pending_message].
    eexists. split; [done|]. simpl. split; [apply delete_insert_eq|].
    intros k q s Hk Hq Hact Hfree.
    destruct (Hfan k q s) as [_ Hs]; [|done|done|].
    { apply (ranges_over_elem_of _ _ _ Hord). by rewrite Hk. }
    unfold fanned, Subscription.supports in Hs. simpl in Hs.
    rewrite bool_decide_eq_true_2 in Hs by done. by rewrite Hfree in Hs.
Qed.

Lemma Notify_blocking_witness :
  Notify None RecvCase [0] req_confirm srv_joined = Blocked ∧
  ∃ srv2,
    Notify (Some Canceled) RecvCase [0] req_confirm srv_joined
    = Ok (srv2, inr (CtxErr Canceled)) ∧
    pendingNotifications srv2 = delete 0 (pendingNotifications srv_joined).
Proof.
  destruct (Notify_blocking RecvCase [0] req_confirm srv_joined)
    as (Hwaits & Hcancel);
    [apply inv_srv_joined | apply ranges_over_singleton | reflexivity
    | vm_compute; lia |].
  split; [exact Hwaits|].
  destruct (Hcancel Canceled) as (srv2 & Hrun & Htable & _).
  exists srv2. split; [exact Hrun | exact Htable].
Defined.

(** ** Joining *)

Lemma omap_length_le {A B} (f : A → option B) (l : list A) :
  (length (omap f l) ≤ length l)%nat.
Proof.
  induction l as [|x l IH]; csimpl; [done|]. destruct (f x); simpl; lia.
Qed.

(** X14. [subscribeLocked] registers the joiner under the next
    subscription id, at a new address, open, with the flag of its request,
    and advances the id counter by one modulo [2^64].  The capacity of its
    queue is the larger of 100 and the size of the pending table, and the
    replay puts at most that many envelopes in it.  Every other entry of
    the registry and every subscription already stored are as before; so
    are the stored pending entries. *)
Theorem subscribeLocked_registers order req srv :
  inv srv → ranges_over order (pendingNotifications srv) →
  ∃ srv' sub,
    subscribeLocked order req srv = Ok (srv', length (subscription_store srv)) ∧
    nextSubscriptionID srv' = uint64_incr (nextSubscriptionID srv) ∧
    subscriptions srv'
    = <[nextSubscriptionID srv := length (subscription_store srv)]> (subscriptions srv) ∧
    subscription_store srv' = subscription_store srv ++ [sub] ∧
    Subscription.id sub = nextSubscriptionID srv ∧
    Subscription.active sub = SubscribeActive req ∧
    Subscription.closed sub = false ∧
    chan_closed (Subscription.channel sub) = false ∧
    cap (Subscription.channel sub)
    = Nat.max SubscriberMaxPendingNotifications (size (pendingNotifications srv)) ∧
    (length (buf (Subscription.channel sub)) ≤ size (pendingNotifications srv))%nat ∧
    pending_store srv' = pending_store srv ∧
    nextNotificationID srv' = nextNotificationID srv.
Proof.
  intros Hinv Hord.
  destruct (subscribeLocked_spec order req srv Hinv Hord) as (table' & Hrun & _).
  eexists _, _. split; [exact Hrun|]. simpl.
  repeat (split; [done|]). split; [|split; [|done]].
  - cbn [cap Subscription.channel].
    unfold join_capacity, SubscriberMaxPendingNotifications.
    destruct (Nat.ltb_spec (size (pendingNotifications srv)) 100); lia.
  - cbn [buf Subscription.channel].
    rewrite <- (ranges_over_length _ _ Hord). apply omap_length_le.
Qed.

Lemma subscribeLocked_registers_witness :
  ∃ srv' sub,
    subscribeLocked [1; 0] {| SubscribeActive := true |} srv_mixed = Ok (srv', 0%nat) ∧
    subscription_store srv' = [sub] ∧
    cap (Subscription.channel sub) = 100%nat.
Proof.
  destruct (subscribeLocked_registers [1; 0] {| SubscribeActive := true |} srv_mixed)
    as (srv' & sub & Hrun & _ & _ & Hstore & _ & _ & _ & _ & Hcap & _);
    [apply inv_srv_mixed | apply ranges_over_srv_mixed |].
  exists srv', sub. split; [exact Hrun|]. split; [exact Hstore | exact Hcap].
Defined.

(** ** The subscriber's loop *)

Lemma open_subscription_channel s :
  chan_closed (Subscription.channel s) = false →
  Subscription.with_channel s
    (mkChan (buf (Subscription.channel s)) (cap (Subscription.channel s)) false)
  = s.
Proof. destruct s as [i a [b c cl] o d ca]. simpl. by intros ->. Qed.

(** While the stream is live and [resp.Send] succeeds, the loop forwards
    the queue from its head, one message per iteration, and parks once the
    queue is empty. *)
Lemma Subscribe_loop_drain turns :
  ∀ sptr s srv,
    subscription_store srv !! sptr = Some s →
    Subscription.closed s = false →
    chan_closed (Subscription.channel s) = false →
    Forall (λ t, stream_done t = false ∧ send_ok t = true) turns →
    Subscribe_loop turns sptr srv
    = Ok (store_subscription sptr
            (Subscription.with_channel s
               (mkChan (drop (length turns) (buf (Subscription.channel s)))
                  (cap (Subscription.channel s)) false)) srv,
          take (length turns) (buf (Subscription.channel s)),
          if (length turns <=? length (buf (Subscription.channel s)))%nat
          then Looping else Parked).
Proof.
  induction turns as [|t rest IH]; intros sptr s srv Hs Hcl Hopen Hturns.
  { simpl. rewrite drop_0, open_subscription_channel by done.
    unfold store_subscription. rewrite list_insert_id by done. by destruct srv. }
  apply Forall_cons in Hturns as [[Hdone Hsend] Hturns].
  cbn [Subscribe_loop]. unfold Subscribe_turn, deref. rewrite Hs, Hdone, Hsend.
  cbn [mbind outcome_bind]. unfold chan_try_recv.
  destruct (buf (Subscription.channel s)) as [|m b] eqn:Hbuf.
  - rewrite Hopen. simpl.
    rewrite <- Hbuf, open_subscription_channel by done.
    unfold store_subscription. rewrite list_insert_id by done. by destruct srv.
  - cbn [recv_ready select2]. rewrite Hcl.
    rewrite (IH sptr
               (Subscription.with_channel s
                  (mkChan b (cap (Subscription.channel s))
                     (chan_closed (Subscription.channel s))))); simpl.
    + unfold store_subscription. simpl. by rewrite list_insert_insert_eq.
    + apply list_lookup_insert_eq. by eapply lookup_lt_Some.
    + done.
    + done.
    + done.
Qed.

(** X9. What the dispatcher enqueues is what the subscriber's loop hands
    to the stream, in queue order: after a dispatch to an eligible
    subscription with room, as many live iterations as the queue is long
    forward the messages that were queued before, then the new envelope. *)
Theorem dispatch_then_forward order req srv k q s turns :
  inv srv → ranges_over order (subscriptions srv) →
  subscriptions srv !! k = Some q → subscription_store srv !! q = Some s →
  Subscription.active s = Active req → queue_full s = false →
  Forall (λ t, stream_done t = false ∧ send_ok t = true) turns →
  length turns = S (length (buf (Subscription.channel s))) →
  ∃ srv1 ptr srv2,
    notifySubscribers order req srv = Ok (srv1, ptr) ∧
    Subscribe_loop turns q srv1
    = Ok (srv2,
          buf (Subscription.channel s)
            ++ [{| RequestId := nextNotificationID srv; Request := req |}],
          Looping) ∧
    ∃ s2, subscription_store srv2 !! q = Some s2 ∧ buf (Subscription.channel s2) = [].
Proof.
  intros Hinv Hord Hk Hq Hact Hfree Hturns Hlen.
  destruct (notifySubscribers_spec order req srv Hinv (ranges_over_NoDup _ _ Hord))
    as (regs & sstore & Hrun & _ & _ & _ & Hfan).
  destruct (Hfan k q s) as [_ Hs]; [|done|done|].
  { apply (ranges_over_elem_of _ _ _ Hord). by rewrite Hk. }
  unfold fanned, Subscription.supports in Hs. simpl in Hs.
  rewrite bool_decide_eq_true_2 in Hs by done. rewrite Hfree in Hs.
  destruct (inv_subscription_table _ Hinv _ _ Hk) as (s' & Hs' & _ & Hcl).
  assert (s' = s) as -> by congruence.
  eexists _, _, _. split; [exact Hrun|].
  rewrite (Subscribe_loop_drain turns q
             (enqueued {| RequestId := nextNotificationID srv; Request := req |} s));
    [|exact Hs|done|done|done].
  cbn [enqueued Subscription.with_channel Subscription.channel buf cap].
  rewrite Hlen.
  assert (Hfull : length (buf (Subscription.channel s)
                          ++ [{| RequestId := nextNotificationID srv; Request := req |}])
                  = S (length (buf (Subscription.channel s))))
    by (rewrite length_app; simpl; lia).
  rewrite <- Hfull at 1 2 3. rewrite Nat.leb_refl, firstn_all, drop_all.
  split; [reflexivity|]. eexists. split.
  - simpl. apply list_lookup_insert_eq. by eapply lookup_lt_Some.
  - reflexivity.
Qed.

Lemma dispatch_then_forward_witness :
  ∃ srv1 ptr srv2,
    notifySubscribers [0] (req_info true) srv_joined = Ok (srv1, ptr) ∧
    Subscribe_loop [mkTurn false true RecvCase] 0%nat srv1
    = Ok (srv2, [{| RequestId := 0; Request := req_info true |}], Looping).
Proof.
  destruct (dispatch_then_forward [0] (req_info true) srv_joined 0 0%nat
              (Subscription.mk 0 true (mkChan [] 100 false) false false false)
              [mkTurn false true RecvCase])
    as (srv1 & ptr & srv2 & Hrun & Hloop & _);
    [apply inv_srv_joined | apply ranges_over_singleton | reflexivity | reflexivity
    | reflexivity | reflexivity | by repeat constructor | reflexivity |].
  exists srv1, ptr, srv2. split; [exact Hrun | exact Hloop].
Defined.

(** ** The whole of Subscribe *)

Lemma Subscribe_turn_subscriptions stream_done send_ok pick sptr srv srv' r :
  Subscribe_turn stream_done send_ok pick sptr srv = Ok (srv', r) →
  subscriptions srv' = subscriptions srv.
Proof.
  unfold Subscribe_turn. intros H. apply bind_Ok in H as (s & _ & H).
  destruct (select2 _ _ _) as [[]|]; [|by injection H as <- <-|done].
  destruct (chan_try_recv _); [|by injection H as <- <-|done].
  destruct (Subscription.closed s); [by injection H as <- <-|].
  destruct send_ok; by injection H as <- <-.
Qed.

(** On an open subscription an iteration returns only because the stream
    is done, or because [resp.Send] failed. *)
Lemma Subscribe_turn_open_returns stream_done send_ok pick sptr s srv srv' r :
  subscription_store srv !! sptr = Some s →
  Subscription.closed s = false →
  chan_closed (Subscription.channel s) = false →
  Subscribe_turn stream_done send_ok pick sptr srv = Ok (srv', inr r) →
  r = None ∨ r = Some (Status Internal).
Proof.
  intros Hs Hcl Hopen. unfold Subscribe_turn, deref. rewrite Hs. simpl.
  destruct (select2 _ _ _) as [[]|]; [|intros [= <- <-]; by left|done].
  unfold chan_try_recv. destruct (buf (Subscription.channel s)).
  - by rewrite Hopen.
  - rewrite Hcl. destruct send_ok; [done|]. intros [= <- <-]. by right.
Qed.

Lemma Subscribe_loop_returns turns :
  ∀ sptr k srv,
    inv srv → subscriptions srv !! k = Some sptr →
    ∃ srv' ms st,
      Subscribe_loop turns sptr srv = Ok (srv', ms, st) ∧
      inv srv' ∧ subscriptions srv' = subscriptions srv ∧
      ∀ r, st = Returned r → r = None ∨ r = Some (Status Internal).
Proof.
  induction turns as [|t rest IH]; intros sptr k srv Hinv Hk.
  { eexists _, _, _. split; [reflexivity|]. done. }
  cbn [Subscribe_loop].
  destruct (inv_subscription_table _ Hinv _ _ Hk) as (s & Hs & _ & Hcl).
  assert (Hopen : chan_closed (Subscription.channel s) = false).
  { destruct (Forall_lookup_1 _ _ _ _ (inv_subscription_store _ Hinv) Hs) as [_ Hc].
    congruence. }
  destruct (Subscribe_turn _ _ _ sptr srv) as [[srv1 [m|r]]| |] eqn:Hturn.
  - assert (Hinv1 : inv srv1) by (by eapply Subscribe_turn_inv).
    pose proof (Subscribe_turn_subscriptions _ _ _ _ _ _ _ Hturn) as Hsubs.
    destruct (IH sptr k srv1 Hinv1) as (srv2 & ms2 & st2 & Hloop & Hinv2 & Hsubs2 & Hr);
      [by rewrite Hsubs|].
    rewrite Hloop. eexists _, _, _. split; [reflexivity|].
    split; [done|]. split; [congruence | done].
  - eexists _, _, _. split; [reflexivity|].
    split; [by eapply Subscribe_turn_inv|].
    split; [by eapply Subscribe_turn_subscriptions|].
    intros r' [= <-]. by eapply Subscribe_turn_open_returns.
  - eexists _, _, _. split; [reflexivity|]. done.
  - unfold Subscribe_turn, deref in Hturn. rewrite Hs in Hturn. simpl in Hturn.
    destruct (select2 _ _ _) as [[]|]; try done.
    destruct (chan_try_recv _); try done.
    destruct (Subscription.closed s); [done|]. by destruct (send_ok t).
Qed.

(** X15. [Subscribe], run on its own from a state that satisfies the
    invariant, never fails inside the broker.  While the stream is live and
    takes the messages, it forwards the replayed envelopes of the eligible
    pending entries, in the order of the table iteration, then parks with
    its subscription still registered.  Whenever it returns, the reason is
    the stream (its context done: [nil]; a failed send: [Internal]), and
    the deferred [unsubscribeLocked] has removed its subscription from the
    registry and closed it. *)
Theorem Subscribe_lifecycle order turns req srv :
  inv srv → ranges_over order (pendingNotifications srv) →
  ∃ srv' ms st,
    Subscribe order turns req srv = Ok (srv', ms, st) ∧
    (Forall (λ t, stream_done t = false ∧ send_ok t = true) turns →
     ms = take (length turns) (omap (replays (SubscribeActive req) srv) order) ∧
     st = (if (length turns
               <=? length (omap (replays (SubscribeActive req) srv) order))%nat
           then Looping else Parked) ∧
     subscriptions srv' !! nextSubscriptionID srv
     = Some (length (subscription_store srv))) ∧
    (∀ r, st = Returned r →
          (r = None ∨ r = Some (Status Internal)) ∧
          subscriptions srv' !! nextSubscriptionID srv = None ∧
          ∃ s', subscription_store srv' !! length (subscription_store srv) = Some s' ∧
                Subscription.closed s' = true ∧
                chan_closed (Subscription.channel s') = true).
Proof.
  intros Hinv Hord.
  destruct (subscribeLocked_spec order req srv Hinv Hord) as (table' & Hrun & _).
  set (sub := Subscription.mk (nextSubscriptionID srv) (SubscribeActive req)
                (mkChan (omap (replays (SubscribeActive req) srv) order)
                   (join_capacity srv) false) false false false) in *.
  set (srv1 := mkService _ _ _ _ _ _) in Hrun.
  assert (Hinv1 : inv srv1) by (by eapply subscribeLocked_inv).
  assert (Hsub : subscription_store srv1 !! length (subscription_store srv) = Some sub).
  { unfold srv1. simpl. by rewrite lookup_app_r, Nat.sub_diag by lia. }
  assert (Hreg : subscriptions srv1 !! nextSubscriptionID srv
                 = Some (length (subscription_store srv))).
  { unfold srv1. simpl. apply lookup_insert_eq. }
  unfold Subscribe. rewrite Hrun. cbn [mbind outcome_bind].
  unfold deref. rewrite Hsub. cbn [mbind outcome_bind].
  change (Subscription.id sub) with (nextSubscriptionID srv).
  destruct (Subscribe_loop_returns turns _ _ srv1 Hinv1 Hreg)
    as (srv2 & ms & st & Hloop & Hinv2 & Hsubs2 & Hreason).
  rewrite Hloop. cbn [mbind outcome_bind].
  assert (Hreg2 : subscriptions srv2 !! nextSubscriptionID srv
                  = Some (length (subscription_store srv))) by (by rewrite Hsubs2).
  destruct (inv_subscription_table _ Hinv2 _ _ Hreg2) as (s2 & Hs2 & _).
  pose proof (unsubscribeLocked_spec srv2 _ _ s2 Hinv2 Hreg2 Hs2) as Hunsub.
  assert (Hdrain : Forall (λ t, stream_done t = false ∧ send_ok t = true) turns →
            ms = take (length turns) (omap (replays (SubscribeActive req) srv) order) ∧
            st = (if (length turns
                      <=? length (omap (replays (SubscribeActive req) srv) order))%nat
                  then Looping else Parked)).
  { intros Hturns.
    rewrite (Subscribe_loop_drain turns _ sub srv1 Hsub eq_refl eq_refl Hturns) in Hloop.
    injection Hloop as _ <- <-. done. }
  destruct st as [r| |].
  - rewrite Hunsub. cbn [mbind outcome_bind]. eexists _, _, _.
    split; [reflexivity|]. split.
    + intros Hturns. destruct (Hdrain Hturns) as [_ Hst].
      by destruct (_ <=? _)%nat.
    + intros r' [= <-]. split; [by apply Hreason|]. simpl.
      split; [apply lookup_delete_eq|]. eexists. split.
      * apply list_lookup_insert_eq. by eapply lookup_lt_Some.
      * done.
  - eexists _, _, _. split; [reflexivity|]. split; [|done].
    intros Hturns. destruct (Hdrain Hturns) as [-> Hst]. done.
  - eexists _, _, _. split; [reflexivity|]. split; [|done].
    intros Hturns. destruct (Hdrain Hturns) as [-> Hst]. done.
Qed.

Lemma Subscribe_lifecycle_witness :
  (∃ srv',
     Subscribe [1; 0] [mkTurn false true RecvCase; mkTurn false true RecvCase;
                       mkTurn false true RecvCase]
       {| SubscribeActive := true |} srv_mixed
     = Ok (srv',
           [{| RequestId := 1; Request := req_info true |};
            {| RequestId := 0; Request := req_confirm |}],
           Parked)) ∧
  (∃ srv', Subscribe [1; 0] [mkTurn true true DoneCase]
             {| SubscribeActive := true |} srv_mixed
           = Ok (srv', [], Returned None) ∧
           subscriptions srv' !! 0 = None).
Proof.
  split.
  - destruct (Subscribe_lifecycle [1; 0]
                [mkTurn false true RecvCase; mkTurn false true RecvCase;
                 mkTurn false true RecvCase]
                {| SubscribeActive := true |} srv_mixed)
      as (srv' & ms & st & Hrun & Hlive & _);
      [apply inv_srv_mixed | apply ranges_over_srv_mixed |].
    destruct Hlive as (-> & -> & _); [by repeat constructor|].
    exists srv'. exact Hrun.
  - destruct (Subscribe_lifecycle [1; 0] [mkTurn true true DoneCase]
                {| SubscribeActive := true |} srv_mixed)
      as (srv' & ms & st & Hrun & _ & Hreturned);
      [apply inv_srv_mixed | apply ranges_over_srv_mixed |].
    assert (Hst : ms = [] ∧ st = Returned None).
    { vm_compute in Hrun. by injection Hrun as _ <- <-. }
    destruct Hst as [-> ->].
    destruct (Hreturned None eq_refl) as (_ & Hgone & _).
    exists srv'. split; [exact Hrun | exact Hgone].
Defined.
